(** * Block-wise parallel midpoint integration: work distribution protocol

    A shallow embedding of [main.cpp]: the block partition computed by
    every worker ([calculateIteration], lines 60-94), the shared cursor
    [nextBlock], the accumulator [pi], the suspend/resume handshake between
    the workers and the coordinator ([calculatePi]).

    Integers of the program are 32-bit ([int], and [long] under MSVC); they
    are modelled as [Z] with the two's complement wrap-around written out.
    Threads are modelled by an interleaving semantics: one atomic action of
    one thread per step, the order of the steps chosen by a schedule. *)

From Stdlib Require Import ZArith Lia QArith Qcanon Sorted.
From stdpp Require Import base tactics option numbers list.

Local Open Scope Z_scope.

(** ** 32-bit integers *)

Definition INT_MAX : Z := 2147483647.
Definition INT_MIN : Z := -2147483648.

(** The value an [int] holds after an arithmetic result [z]. *)
Definition wrap32 (z : Z) : Z := (z + 2 ^ 31) `mod` 2 ^ 32 - 2 ^ 31.

(** ** The constants of the program *)

(** [#define N 100000000] and [#define BLOCK_SIZE 8307040]. *)
Definition N_main : Z := 100000000.
Definition BLOCK_SIZE_main : Z := 8307040.

(** ** Arithmetic of the partial sums

    The program sums in [double]. The protocol is indifferent to the
    arithmetic, so the model takes it as an interface: the operations the
    program applies to its floating-point values. *)

Class Arith (R : Type) := {
  r0 : R;                 (* the literal 0 *)
  radd : R → R → R;       (* + and += *)
  rmul : R → R → R;       (* pow(x, 2) is x * x *)
  rdiv : R → R → R;       (* / *)
  rofZ : Z → R;           (* conversion of an int *)
  rhalf : R               (* the literal 0.5 *)
}.

(** Exact arithmetic: the rationals. *)
#[export] Instance Qc_Arith : Arith Qc := {|
  r0 := 0%Qc;
  radd := Qcplus;
  rmul := Qcmult;
  rdiv := Qcdiv;
  rofZ := λ z, Q2Qc (inject_Z z);
  rhalf := Q2Qc (1 # 2)
|}.

(** ** The block partition (lines 25, 60, 73-94) *)

Section Partition.

(** The two macros; the development is parametric in their values. *)
Variables N BLOCK_SIZE : Z.

(** [#define NUMBER_OF_BLOCKS N/BLOCK_SIZE +(N % BLOCK_SIZE ? 1 : 0)],
    with C's truncating division. Everywhere the macro is used it stands
    to the right of [<=], which binds weaker than [+]. *)
Definition NUMBER_OF_BLOCKS : Z :=
  N `quot` BLOCK_SIZE + (if N `rem` BLOCK_SIZE =? 0 then 0 else 1).

(** [int startIteration = currentBlock * BLOCK_SIZE;] *)
Definition startIteration (currentBlock : Z) : Z :=
  wrap32 (currentBlock * BLOCK_SIZE).

(** [int endIteration = (currentBlock + 1) * BLOCK_SIZE;
     if (endIteration > N) endIteration = N;] *)
Definition endIteration (currentBlock : Z) : Z :=
  let e := wrap32 ((currentBlock + 1) * BLOCK_SIZE) in
  if e >? N then N else e.

(** The guard of the worker's loop: [currentBlock <= NUMBER_OF_BLOCKS]. *)
Definition loop_guard (currentBlock : Z) : bool :=
  currentBlock <=? NUMBER_OF_BLOCKS.

(** [for (int i = start; i < e; i++) acc = body i acc]. The variable [i]
    stays below [e], an [int], so [i + 1] never wraps. *)
Fixpoint for_loop {A : Type} (body : Z → A → A) (fuel : nat) (i e : Z) (acc : A) : A :=
  match fuel with
  | O => acc
  | S fuel' => if i <? e then for_loop body fuel' (i + 1) e (body i acc) else acc
  end.

(** The loop runs [e - s] times when that is positive and not at all
    otherwise, so this fuel is never exhausted. *)
Definition for_range {A : Type} (body : Z → A → A) (s e : Z) (acc : A) : A :=
  for_loop body (Z.to_nat (e - s)) s e acc.

(** The sample indices at which the summation of block [currentBlock]
    evaluates the integrand, in the order of evaluation. *)
Definition block_indices (currentBlock : Z) : list Z :=
  for_range (λ i l, l ++ [i]) (startIteration currentBlock) (endIteration currentBlock) [].

(** The constants are usable when every product the workers compute,
    up to [(NUMBER_OF_BLOCKS + 1) * BLOCK_SIZE], fits in an [int]. *)
Definition valid_constants : Prop :=
  1 ≤ N ∧ 1 ≤ BLOCK_SIZE ∧ (NUMBER_OF_BLOCKS + 1) * BLOCK_SIZE ≤ INT_MAX.

(** The ranges of the blocks [0 .. m-1], as pairs (start, end). *)
Definition block_ranges (m : Z) : list (Z * Z) :=
  (λ k, (startIteration k, endIteration k)) <$> seqZ 0 m.

Context {R : Type} `{Arith R}.

(** [4 / (1 + pow((i + 0.5) / N, 2))] *)
Definition integrand (i : Z) : R :=
  let x := rdiv (radd (rofZ i) rhalf) (rofZ N) in
  rdiv (rofZ 4) (radd (rofZ 1) (rmul x x)).

(** Lines 73-94: the partial sum after block [currentBlock]. *)
Definition sum_block (currentBlock : Z) (threadPi : R) : R :=
  for_range (λ i acc, radd acc (integrand i))
    (startIteration currentBlock) (endIteration currentBlock) threadPi.

(** Single-threaded summation over all the samples, divided by [N]. *)
Definition sequential_sum : R :=
  for_range (λ i acc, radd acc (integrand i)) 0 N r0.

Definition sequential_estimate : R := rdiv sequential_sum (rofZ N).

End Partition.

(** ** Threads

    A step of the model is one access of a thread to the shared state (the
    cursor, the accumulator, an event, a suspend count), together with the
    code on locals that leads to it: the summation of a block reads and
    writes only locals of its thread, so it is one step. The cursor and
    the accumulator are atomics, accessed by single loads, stores and
    read-modify-write operations; under [memory_order_relaxed] the
    operations on one atomic object still occur in a single total order,
    which is the order of the steps. A thread that [CreateThread] failed
    to create is not modelled. *)

(** Program points of [calculateIteration]. *)
Inductive wpc : Type :=
  | AtLoop        (* line 60, the test of the [while] *)
  | AtSetEvent    (* line 101 *)
  | AtCheck       (* line 106 *)
  | AtSuspend     (* line 107 *)
  | AtClaim       (* line 125 *)
  | AtFold        (* line 133 *)
  | Terminated.   (* line 135 *)

#[export] Instance wpc_eq_dec : EqDecision wpc.
Proof. solve_decision. Defined.

(** A thread of [threadsArray]: its program point and locals, and the
    suspend count the system keeps for it (it runs when the count is 0). *)
Record worker (R : Type) : Type := Worker {
  w_pc : wpc;
  currentBlock : Z;
  threadPi : R;
  suspendCount : nat
}.
Arguments Worker {R}.
Arguments w_pc {R}.
Arguments currentBlock {R}.
Arguments threadPi {R}.
Arguments suspendCount {R}.

(** Program points of [calculatePi], after the two arrays are filled. *)
Inductive cpc : Type :=
  | CSetCursor            (* line 173 *)
  | CStart (i : nat)      (* lines 179-181 *)
  | CLoop                 (* line 204 *)
  | CWait                 (* line 212 *)
  | CReset (j : nat)      (* line 215 *)
  | CResume (j : nat)     (* line 218 *)
  | CFinal (i : nat)      (* lines 224-231 *)
  | CJoin                 (* line 234 *)
  | CDivide               (* line 237 *)
  | CDone.

#[export] Instance cpc_eq_dec : EqDecision cpc.
Proof. solve_decision. Defined.

(** What the threads did, most recent first. *)
Inductive event : Type :=
  | EvStore (v : Z)               (* nextBlock = v *)
  | EvResume (i : nat)            (* ResumeThread(threadsArray[i]) *)
  | EvCompute (id : nat) (k : Z)  (* the summation of block k *)
  | EvSetEvent (id : nat)         (* SetEvent(eventsArray[id]) *)
  | EvSuspend (id : nat)          (* SuspendThread(threadsArray[id]) *)
  | EvClaim (id : nat) (v : Z)    (* nextBlock.fetch_add(1) returned v *)
  | EvFold (id : nat).            (* pi.fetch_add(threadPi) *)

#[export] Instance event_eq_dec : EqDecision event.
Proof. solve_decision. Defined.

Record state (R : Type) : Type := State {
  nextBlock : Z;
  pi : R;
  threadsArray : list (worker R);
  eventsArray : list bool;
  c_pc : cpc;
  log : list event
}.
Arguments State {R}.
Arguments nextBlock {R}.
Arguments pi {R}.
Arguments threadsArray {R}.
Arguments eventsArray {R}.
Arguments c_pc {R}.
Arguments log {R}.

(** The threads of the process. *)
Inductive thread : Type :=
  | Coordinator
  | WorkerThread (id : nat).

(** [nextBlock.fetch_add(1)]: the value read and the value left behind.
    Arithmetic of [std::atomic<long>] wraps. *)
Definition fetch_add (cursor : Z) : Z * Z := (cursor, wrap32 (cursor + 1)).

(** [ResumeThread(threadsArray[i])]. The array has no slot [i] when [i] is
    past its end: the program then reads memory it does not own, and the
    model leaves every thread as it is. *)
Definition ResumeThread {R} (i : nat) (ts : list (worker R)) : list (worker R) :=
  match ts !! i with
  | Some w =>
      <[i := Worker (w_pc w) (currentBlock w) (threadPi w) (Nat.pred (suspendCount w))]> ts
  | None => ts
  end.

(** [WaitForMultipleObjects(.., eventsArray, false, INFINITE) - WAIT_OBJECT_0]:
    the smallest index of a signaled event; none while no event is set. *)
Fixpoint first_signaled (evs : list bool) : option nat :=
  match evs with
  | [] => None
  | b :: evs' => if b then Some O else S <$> first_signaled evs'
  end.

Definition is_terminated {R} (w : worker R) : bool := bool_decide (w_pc w = Terminated).

(** [WaitForMultipleObjects(.., threadsArray, true, INFINITE)] returns. *)
Definition all_terminated {R} (ts : list (worker R)) : bool := forallb is_terminated ts.

Section Program.

Variables N BLOCK_SIZE : Z.
Context {R : Type} `{Arith R}.

(** The number read from the user. *)
Variable numberOfThreads : nat.

Local Abbreviation M := (NUMBER_OF_BLOCKS N BLOCK_SIZE).

(** Lines 161-166: every thread is created suspended, with its index as
    argument; every event is created unsignaled. The locals [threadPi] and
    [currentBlock] get their first values (lines 45 and 53) before the
    thread does anything else, so the model gives them at creation. *)
Definition create_threads : list (worker R) :=
  (λ i, Worker AtLoop (Z.of_nat i) r0 1%nat) <$> seq 0 numberOfThreads.

Definition create_events : list bool := replicate numberOfThreads false.

(** The state when [calculatePi] reaches line 173. *)
Definition initial : state R :=
  State 0 r0 create_threads create_events CSetCursor [].

(** One action of [calculateIteration] run by worker [id]. *)
Definition calculateIteration_step (id : nat) (s : state R) : state R :=
  match threadsArray s !! id with
  | None => s
  | Some w =>
    let put w' := <[id := w']> (threadsArray s) in
    match suspendCount w with
    | S _ => s
    | O =>
      match w_pc w with
      | AtLoop =>
          if loop_guard N BLOCK_SIZE (currentBlock w) then
            State (nextBlock s) (pi s)
              (put (Worker AtSetEvent (currentBlock w)
                      (sum_block N BLOCK_SIZE (currentBlock w) (threadPi w)) O))
              (eventsArray s) (c_pc s)
              (EvCompute id (currentBlock w) :: log s)
          else
            State (nextBlock s) (pi s)
              (put (Worker AtFold (currentBlock w) (threadPi w) O))
              (eventsArray s) (c_pc s) (log s)
      | AtSetEvent =>
          State (nextBlock s) (pi s)
            (put (Worker AtCheck (currentBlock w) (threadPi w) O))
            (<[id := true]> (eventsArray s)) (c_pc s)
            (EvSetEvent id :: log s)
      | AtCheck =>
          State (nextBlock s) (pi s)
            (put (Worker (if nextBlock s <=? M then AtSuspend else AtClaim)
                    (currentBlock w) (threadPi w) O))
            (eventsArray s) (c_pc s) (log s)
      | AtSuspend =>
          State (nextBlock s) (pi s)
            (put (Worker AtClaim (currentBlock w) (threadPi w) 1%nat))
            (eventsArray s) (c_pc s)
            (EvSuspend id :: log s)
      | AtClaim =>
          let '(v, cursor) := fetch_add (nextBlock s) in
          State cursor (pi s)
            (put (Worker AtLoop v (threadPi w) O))
            (eventsArray s) (c_pc s)
            (EvClaim id v :: log s)
      | AtFold =>
          State (nextBlock s) (radd (pi s) (threadPi w))
            (put (Worker Terminated (currentBlock w) (threadPi w) O))
            (eventsArray s) (c_pc s)
            (EvFold id :: log s)
      | Terminated => s
      end
    end
  end.

(** One action of [calculatePi], the coordinator. *)
Definition calculatePi_step (s : state R) : state R :=
  match c_pc s with
  | CSetCursor =>
      State (Z.of_nat numberOfThreads) (pi s) (threadsArray s) (eventsArray s)
        (CStart 0) (EvStore (Z.of_nat numberOfThreads) :: log s)
  | CStart i =>
      if (i <=? numberOfThreads)%nat then
        State (nextBlock s) (pi s) (ResumeThread i (threadsArray s)) (eventsArray s)
          (CStart (S i)) (EvResume i :: log s)
      else
        State (nextBlock s) (pi s) (threadsArray s) (eventsArray s) CLoop (log s)
  | CLoop =>
      State (nextBlock s) (pi s) (threadsArray s) (eventsArray s)
        (if nextBlock s <=? M then CWait else CFinal 0) (log s)
  | CWait =>
      match first_signaled (eventsArray s) with
      | Some j =>
          State (nextBlock s) (pi s) (threadsArray s) (eventsArray s) (CReset j) (log s)
      | None => s
      end
  | CReset j =>
      State (nextBlock s) (pi s) (threadsArray s) (<[j := false]> (eventsArray s))
        (CResume j) (log s)
  | CResume j =>
      State (nextBlock s) (pi s) (ResumeThread j (threadsArray s)) (eventsArray s)
        CLoop (EvResume j :: log s)
  | CFinal i =>
      if (i <? numberOfThreads)%nat then
        State (nextBlock s) (pi s) (ResumeThread i (threadsArray s)) (eventsArray s)
          (CFinal (S i)) (EvResume i :: log s)
      else
        State (nextBlock s) (pi s) (threadsArray s) (eventsArray s) CJoin (log s)
  | CJoin =>
      if all_terminated (threadsArray s) then
        State (nextBlock s) (pi s) (threadsArray s) (eventsArray s) CDivide (log s)
      else s
  | CDivide =>
      State (nextBlock s) (rdiv (pi s) (rofZ N)) (threadsArray s) (eventsArray s)
        CDone (log s)
  | CDone => s
  end.

Definition step (t : thread) (s : state R) : state R :=
  match t with
  | Coordinator => calculatePi_step s
  | WorkerThread id => calculateIteration_step id s
  end.

(** A schedule names the thread that acts at each step. A thread that
    cannot act (suspended, waiting, finished) leaves the state as it is. *)
Definition run (sched : list thread) (s : state R) : state R :=
  foldl (λ s t, step t s) s sched.

Definition reachable (s : state R) : Prop := ∃ sched, s = run sched initial.

End Program.

(** ** Vocabulary of the properties *)

(** Combination of the elements of a list by [op]. *)
Definition big {A : Type} (op : A → A → A) (e : A) (l : list A) : A := foldr op e l.

(** The claims recorded in a log, most recent first: which worker obtained
    which value from [nextBlock.fetch_add(1)]. *)
Fixpoint claimed (l : list event) : list (nat * Z) :=
  match l with
  | [] => []
  | EvClaim id v :: l' => (id, v) :: claimed l'
  | _ :: l' => claimed l'
  end.

(** The summations recorded in a log, most recent first. *)
Fixpoint computed (l : list event) : list (nat * Z) :=
  match l with
  | [] => []
  | EvCompute id k :: l' => (id, k) :: computed l'
  | _ :: l' => computed l'
  end.

(** The blocks the workers hold by their identity: worker [i] starts
    with block [i]. *)
Definition initial_blocks (T : nat) : list (nat * Z) :=
  (λ i, (i, Z.of_nat i)) <$> seq 0 T.

(** Every block handed to a worker, in the order of the hand-over. *)
Definition dispatch (T : nat) (l : list event) : list (nat * Z) :=
  initial_blocks T ++ reverse (claimed l).

(** How often block [k] occurs in a list of (worker, block) pairs. *)
Definition occurrences (k : Z) (l : list (nat * Z)) : nat :=
  length (filter (λ p, p.2 = k) l).

(** The values stored into [nextBlock] by plain assignment. *)
Fixpoint stores (l : list event) : list Z :=
  match l with
  | [] => []
  | EvStore v :: l' => v :: stores l'
  | _ :: l' => stores l'
  end.

(** The worker whose action an event records. *)
Definition owner (e : event) : option nat :=
  match e with
  | EvStore _ | EvResume _ => None
  | EvCompute id _ | EvSetEvent id | EvSuspend id | EvClaim id _ | EvFold id => Some id
  end.

(** The actions of worker [id] in a log, most recent first. *)
Definition events_of (id : nat) (l : list event) : list event :=
  filter (λ e, owner e = Some id) l.

(** How often worker [id] added its partial sum to the accumulator. *)
Definition folds (id : nat) (l : list event) : nat :=
  length (filter (λ e, e = EvFold id) l).

(** The worker is between its summation and its next claim. *)
Definition in_body (pc : wpc) : bool :=
  match pc with
  | AtSetEvent | AtCheck | AtSuspend | AtClaim => true
  | _ => false
  end.

(** The cursor as the log gives it: [T] plus the number of claims. *)
Definition cursor_of (T : nat) (l : list event) : Z :=
  Z.of_nat T + Z.of_nat (length (claimed l)).

(** ** Statements of the specification that the program does not meet *)

(** "The cursor stays within [[numberOfThreads, M]] for the whole run." *)
Definition cursor_within_blocks {R : Type} `{Arith R} (N B : Z) (T : nat) : Prop :=
  ∀ sched, let s := run N B T sched (initial (R:=R) T) in
    c_pc s ≠ CSetCursor → Z.of_nat T ≤ nextBlock s ≤ NUMBER_OF_BLOCKS N B.

(** "The loop body runs only while [currentBlock < M]; once
    [currentBlock >= M] the worker proceeds directly to the fold, without
    signaling completion for that empty block." *)
Definition body_only_below_blocks {R : Type} `{Arith R} (N B : Z) (T : nat) : Prop :=
  ∀ sched id w, let s := run N B T sched (initial (R:=R) T) in
    threadsArray s !! id = Some w → suspendCount w = O → w_pc w = AtLoop →
    NUMBER_OF_BLOCKS N B ≤ currentBlock w →
    let s1 := step N B T (WorkerThread id) s in
    let s2 := step N B T (WorkerThread id) s1 in
    w_pc <$> threadsArray s1 !! id = Some AtFold ∧ log s2 = EvFold id :: log s.

(** "When starting the run the coordinator resumes exactly the workers
    [0 .. T-1], and never reads a handle beyond the array." *)
Definition start_within_array {R : Type} `{Arith R} (N B : Z) (T : nat) : Prop :=
  ∀ sched i, let s := run N B T sched (initial (R:=R) T) in
    EvResume i ∈ log s → is_Some (threadsArray s !! i).

(** ** Schedules of the examples *)

(** Every thread in turn, [rounds] times. *)
Definition round_robin (T rounds : nat) : list thread :=
  concat (replicate rounds (Coordinator :: (WorkerThread <$> seq 0 T))).

(** With 13 threads: the coordinator starts the workers and reaches its
    loop, worker 12 sums block 12, signals, finds the cursor at 13 and
    suspends itself, the coordinator resumes it, and it claims. *)
Definition schedule_one_claim : list thread :=
  replicate 16 Coordinator ++ replicate 4 (WorkerThread 12)
  ++ replicate 4 Coordinator ++ [WorkerThread 12].

(** With 15 threads: the coordinator starts the workers, and worker 14,
    which starts past the last block, takes its only two steps. *)
Definition schedule_idle_worker : list thread :=
  replicate 18 Coordinator ++ replicate 2 (WorkerThread 14).

(** With 14 threads: the coordinator starts the workers, and worker 13,
    whose first block is block 13, is at the test of its loop. *)
Definition schedule_last_worker : list thread := replicate 17 Coordinator.

(** ** Invariants of the runs *)

Section Invariants.

Variables N BLOCK_SIZE : Z.
Context {R : Type} `{Arith R}.
Variable numberOfThreads : nat.

Local Abbreviation M := (NUMBER_OF_BLOCKS N BLOCK_SIZE).
Local Abbreviation T := numberOfThreads.

(** The worker holds an index past the last block: it has left, or is
    about to leave, its loop. *)
Definition exited (w : worker R) : nat :=
  if M <? currentBlock w then 1%nat else 0%nat.

Definition worker_ok (l : list event) (w : worker R) : Prop :=
  0 ≤ currentBlock w < cursor_of T l
  ∧ (in_body (w_pc w) = true → currentBlock w ≤ M)
  ∧ (w_pc w = AtFold ∨ w_pc w = Terminated → M < currentBlock w).

(** The thread counts and block counts a run can have without the cursor
    leaving the range of a [long]. *)
Definition cursor_fits : Prop :=
  Z.of_nat T + Z.of_nat T `max` (M + 1) < INT_MAX.

Record cursor_inv (s : state R) : Prop := {
  ci_length : length (threadsArray s) = T;
  ci_cursor : c_pc s ≠ CSetCursor → nextBlock s = cursor_of T (log s);
  ci_fresh : c_pc s = CSetCursor → log s = [];
  ci_created : c_pc s = CSetCursor →
    ∀ id w, threadsArray s !! id = Some w → suspendCount w ≠ O;
  ci_workers : ∀ id w, threadsArray s !! id = Some w → worker_ok (log s) w;
  ci_bound : cursor_of T (log s) ≤
    Z.of_nat T `max` (M + 1) + Z.of_nat (big Nat.add O (exited <$> threadsArray s));
  ci_claims : (claimed (log s)).*2 =
    reverse (seqZ (Z.of_nat T) (Z.of_nat (length (claimed (log s)))))
}.

(** The cursor is assigned once, and that is the first thing to happen. *)
Definition store_inv (s : state R) : Prop :=
  (c_pc s = CSetCursor → s = initial T)
  ∧ (c_pc s ≠ CSetCursor →
       stores (log s) = [Z.of_nat T] ∧ last (log s) = Some (EvStore (Z.of_nat T))).

(** Worker [w] holds block [k] and has not summed it yet, or holds it as
    the index that ends its loop. *)
Definition holding (k : Z) (w : worker R) : nat :=
  if negb (in_body (w_pc w)) && (currentBlock w =? k) then 1%nat else 0%nat.

Record dispatch_inv (s : state R) : Prop := {
  di_count : ∀ k,
    (occurrences k (computed (log s))
     + big Nat.add O (holding k <$> threadsArray s))%nat =
    if (0 <=? k) && (k <? cursor_of T (log s)) then 1%nat else 0%nat;
  di_owner : ∀ id w,
    threadsArray s !! id = Some w → (id, currentBlock w) ∈ dispatch T (log s);
  di_computed : ∀ id k,
    (id, k) ∈ computed (log s) → (id, k) ∈ dispatch T (log s) ∧ k ≤ M
}.

(** Terminated workers have folded once, as their last action; the
    others have not folded. *)
Definition fold_inv (s : state R) : Prop :=
  ∀ id w, threadsArray s !! id = Some w →
    (w_pc w = Terminated →
       folds id (log s) = 1%nat ∧ head (events_of id (log s)) = Some (EvFold id))
    ∧ (w_pc w ≠ Terminated → folds id (log s) = O).

(** An upper bound on the steps worker [w] still takes before it has
    folded and terminated. *)
Definition remaining (w : worker R) : nat :=
  match w_pc w with
  | AtLoop => 2 + 5 * Z.to_nat (M + 1 - currentBlock w)
  | AtSetEvent => 6 + 5 * Z.to_nat (M - currentBlock w)
  | AtCheck => 5 + 5 * Z.to_nat (M - currentBlock w)
  | AtSuspend => 4 + 5 * Z.to_nat (M - currentBlock w)
  | AtClaim => 3 + 5 * Z.to_nat (M - currentBlock w)
  | AtFold => 1
  | Terminated => 0
  end%nat.

(** The sum of block [k] alone. *)
Definition block_sum (k : Z) : R := sum_block N BLOCK_SIZE k r0.

(** The sum of the blocks from [c] on, which no worker has yet. *)
Definition pending (c : Z) : R :=
  big radd r0 (block_sum <$> seqZ c (M + 1 - c)).

(** What worker [w] is still to add to the accumulator. *)
Definition contribution (w : worker R) : R :=
  match w_pc w with
  | AtLoop =>
      if currentBlock w <=? M then radd (threadPi w) (block_sum (currentBlock w))
      else threadPi w
  | Terminated => r0
  | _ => threadPi w
  end.

(** The coordinator is past its dispatch loop. *)
Definition in_final (c : cpc) : bool :=
  match c with
  | CFinal _ | CJoin | CDivide | CDone => true
  | _ => false
  end.

Record sum_inv (s : state R) : Prop := {
  si_sum : c_pc s ≠ CDone →
    radd (pi s)
      (radd (big radd r0 (contribution <$> threadsArray s))
            (pending (cursor_of T (log s)))) = pending 0;
  si_final : in_final (c_pc s) = true → M < cursor_of T (log s);
  si_joined : c_pc s = CDivide ∨ c_pc s = CDone →
    all_terminated (threadsArray s) = true;
  si_done : c_pc s = CDone → pi s = rdiv (pending 0) (rofZ N)
}.

End Invariants.

(** ** Vocabulary of the further properties *)

(** The threads while the loop of lines 179-181 is at index [i]: the
    workers below [i] have been resumed, the others are as created. *)
Definition started_threads {R : Type} `{Arith R} (T i : nat) : list (worker R) :=
  (λ j, Worker AtLoop (Z.of_nat j) r0 (if (j <? i)%nat then O else 1%nat)) <$> seq 0 T.

(** The steps of the coordinator up to the test of its dispatch loop: the
    assignment, the resumes for [i = 0 .. T], the exit of the start loop. *)
Definition start_schedule (T : nat) : list thread := replicate (T + 3) Coordinator.

(** The threads when the workers below [i] have each summed their first
    block and suspended themselves, and the others have not started. *)
Definition lost_threads {R : Type} `{Arith R} (N B : Z) (T i : nat) : list (worker R) :=
  (λ j, if (j <? i)%nat
        then Worker AtClaim (Z.of_nat j) (sum_block N B (Z.of_nat j) r0) 1%nat
        else Worker AtLoop (Z.of_nat j) r0 O) <$> seq 0 T.

(** Worker [i] sums its block and signals; the coordinator wakes up,
    resets the event and resumes the worker, which still runs; then the
    worker reads the cursor and suspends itself. *)
Definition lost_wakeup_phase (i : nat) : list thread :=
  [WorkerThread i; WorkerThread i;
   Coordinator; Coordinator; Coordinator; Coordinator;
   WorkerThread i; WorkerThread i].

(** What the phases of the workers below [i] leave in the log. *)
Definition lost_wakeup_log (i : nat) : list event :=
  concat ((λ j, [EvSuspend j; EvResume j; EvSetEvent j; EvCompute j (Z.of_nat j)])
            <$> reverse (seq 0 i)).

Definition lost_wakeup_schedule (T : nat) : list thread :=
  start_schedule T ++ concat (lost_wakeup_phase <$> seq 0 T) ++ [Coordinator].

(** How often [ResumeThread] was called for index [i]. *)
Definition resumes (i : nat) (l : list event) : nat :=
  length (filter (λ e, e = EvResume i) l).

(** The loop of lines 179-181 has made its call for index [i]. *)
Definition start_passed (i : nat) (c : cpc) : bool :=
  match c with
  | CSetCursor => false
  | CStart i' => (i <? i')%nat
  | _ => true
  end.

Section Handshake.

Context {R : Type}.
Variable numberOfThreads : nat.

Local Abbreviation T := numberOfThreads.

(** A suspended worker has not been started yet, or has suspended itself
    and waits at its claim; no suspend count exceeds 1. *)
Definition suspend_inv (s : state R) : Prop :=
  length (threadsArray s) = T
  ∧ ∀ id w, threadsArray s !! id = Some w →
      (suspendCount w ≤ 1)%nat
      ∧ (suspendCount w = 1%nat →
           w_pc w = AtClaim
           ∨ (w_pc w = AtLoop ∧ currentBlock w = Z.of_nat id
              ∧ start_passed id (c_pc s) = false)).

(** Indices and signals of the coordinator's loops. *)
Record handshake_inv (s : state R) : Prop := {
  hi_threads : length (threadsArray s) = T;
  hi_events : length (eventsArray s) = T;
  hi_start : ∀ i, c_pc s = CStart i → (i ≤ S T)%nat;
  hi_final : ∀ i, c_pc s = CFinal i → (i ≤ T)%nat;
  hi_reset : ∀ j, c_pc s = CReset j → eventsArray s !! j = Some true;
  hi_resume : ∀ j, c_pc s = CReset j ∨ c_pc s = CResume j →
    (j < T)%nat ∧ EvSetEvent j ∈ log s;
  hi_signal : ∀ j, eventsArray s !! j = Some true → EvSetEvent j ∈ log s;
  hi_resumed : ∀ i, EvResume i ∈ log s → (i ≤ T)%nat;
  hi_overrun : resumes T (log s) = if start_passed T (c_pc s) then 1%nat else O
}.

End Handshake.

(** The blocks worker [id] has summed, most recent first. *)
Fixpoint blocks_of (id : nat) (l : list event) : list Z :=
  match l with
  | [] => []
  | EvCompute id' k :: l' =>
      if decide (id' = id) then k :: blocks_of id l' else blocks_of id l'
  | _ :: l' => blocks_of id l'
  end.

(** The workers that have folded, most recent first. *)
Fixpoint folded (l : list event) : list nat :=
  match l with
  | [] => []
  | EvFold id :: l' => id :: folded l'
  | _ :: l' => folded l'
  end.

(** An event that is neither a summation nor a fold. *)
Definition plain (e : event) : Prop :=
  match e with
  | EvCompute _ _ | EvFold _ => False
  | _ => True
  end.

Section Order.

Variables N BLOCK_SIZE : Z.
Context {R : Type} `{Arith R}.

(** The samples worker [id] has visited, in the order of the visits. *)
Definition samples_of (id : nat) (l : list event) : list Z :=
  concat (block_indices N BLOCK_SIZE <$> reverse (blocks_of id l)).

(** The integrand added up from 0 over the samples of worker [id], one
    after the other. *)
Definition thread_sum (id : nat) (l : list event) : R :=
  foldl (λ a i, radd a (integrand N i)) r0 (samples_of id l).

(** The sums of the workers that have folded, added up from 0 in the order
    of the folds. *)
Definition folded_sum (l : list event) : R :=
  foldl (λ a id, radd a (thread_sum id l)) r0 (reverse (folded l)).

Record order_inv (s : state R) : Prop := {
  oi_threads : ∀ id w, threadsArray s !! id = Some w → threadPi w = thread_sum id (log s);
  oi_folded : ∀ id, id ∈ folded (log s) →
    ∃ w, threadsArray s !! id = Some w ∧ w_pc w = Terminated;
  oi_joined : c_pc s = CDivide ∨ c_pc s = CDone →
    all_terminated (threadsArray s) = true;
  oi_pi : c_pc s ≠ CDone → pi s = folded_sum (log s);
  oi_done : c_pc s = CDone → pi s = rdiv (folded_sum (log s)) (rofZ N)
}.

End Order.

(** The worker has summed a block and not yet claimed the next. *)
Definition busy {R : Type} (w : worker R) : nat :=
  if in_body (w_pc w) then 1%nat else O.

(** Every summation is followed by one claim of the same worker. *)
Definition claim_inv {R : Type} (s : state R) : Prop :=
  (length (claimed (log s)) + big Nat.add O (busy <$> threadsArray s))%nat
  = length (computed (log s)).

(** The blocks of worker [id], most recent first, each above all the
    earlier ones, the first of them its own index. *)
Definition blocks_ordered {R : Type} (id : nat) (w : worker R) (l : list event) : Prop :=
  StronglySorted (λ later earlier, earlier < later) (blocks_of id l)
  ∧ Z.of_nat id ≤ currentBlock w
  ∧ (∀ k, k ∈ blocks_of id l → Z.of_nat id ≤ k)
  ∧ (in_body (w_pc w) = true → head (blocks_of id l) = Some (currentBlock w))
  ∧ (in_body (w_pc w) = false → ∀ k, k ∈ blocks_of id l → k < currentBlock w)
  ∧ (blocks_of id l = [] → currentBlock w = Z.of_nat id)
  ∧ (blocks_of id l ≠ [] → last (blocks_of id l) = Some (Z.of_nat id)).

Definition all_ordered {R : Type} (s : state R) : Prop :=
  ∀ id w, threadsArray s !! id = Some w → blocks_ordered id w (log s).

(** * Properties *)

(** ** Integers *)

Lemma wrap32_id z : INT_MIN ≤ z ≤ INT_MAX → wrap32 z = z.
Proof.
  unfold wrap32, INT_MIN, INT_MAX. intros Hz.
  rewrite Z.mod_small; lia.
Qed.

(** ** The loop and the partition *)

Lemma for_loop_foldl {A} (body : Z → A → A) fuel i e acc :
  fuel = Z.to_nat (e - i) →
  for_loop body fuel i e acc = foldl (λ a j, body j a) acc (seqZ i (e - i)).
Proof.
  revert i acc. induction fuel as [|fuel IH]; intros i acc Hf.
  - simpl. rewrite seqZ_nil; [done | lia].
  - simpl. destruct (Z.ltb_spec i e); [| lia].
    rewrite IH by lia. rewrite (seqZ_cons i (e - i)) by lia.
    simpl. do 2 f_equal; lia.
Qed.

Lemma for_range_foldl {A} (body : Z → A → A) s e acc :
  for_range body s e acc = foldl (λ a j, body j a) acc (seqZ s (e - s)).
Proof. unfold for_range. by apply for_loop_foldl. Qed.

Lemma foldl_snoc_list (l : list Z) (acc : list Z) :
  foldl (λ a j, a ++ [j]) acc l = acc ++ l.
Proof.
  revert acc. induction l as [|x l IH]; intros acc; simpl.
  - by rewrite app_nil_r.
  - rewrite IH. by rewrite <- app_assoc.
Qed.

Section PartitionFacts.

Variables N B : Z.
Local Abbreviation M := (NUMBER_OF_BLOCKS N B).

Lemma blocks_cover : 1 ≤ N → 1 ≤ B → (M - 1) * B < N ≤ M * B.
Proof.
  intros HN HB. unfold NUMBER_OF_BLOCKS.
  rewrite Z.quot_div_nonneg, Z.rem_mod_nonneg by lia.
  pose proof (Z.div_mod N B ltac:(lia)) as HD.
  pose proof (Z.mod_pos_bound N B ltac:(lia)) as HM.
  destruct (Z.eqb_spec (N `mod` B) 0); nia.
Qed.

Lemma blocks_pos : 1 ≤ N → 1 ≤ B → 1 ≤ M.
Proof. intros HN HB. pose proof (blocks_cover HN HB). nia. Qed.

Lemma blocks_exact :
  1 ≤ N → 1 ≤ B → N `rem` B = 0 → M = N `quot` B ∧ M * B = N.
Proof.
  intros HN HB. unfold NUMBER_OF_BLOCKS.
  rewrite Z.quot_div_nonneg, Z.rem_mod_nonneg by lia.
  intros H0. rewrite H0. simpl.
  pose proof (Z.div_mod N B ltac:(lia)). split; lia.
Qed.

Lemma blocks_residual : 1 ≤ N → 1 ≤ B → N `rem` B ≠ 0 → N < M * B.
Proof.
  intros HN HB. unfold NUMBER_OF_BLOCKS.
  rewrite Z.quot_div_nonneg, Z.rem_mod_nonneg by lia.
  intros H0.
  pose proof (Z.div_mod N B ltac:(lia)) as HD.
  pose proof (Z.mod_pos_bound N B ltac:(lia)) as HM.
  destruct (Z.eqb_spec (N `mod` B) 0); [done | nia].
Qed.

Lemma startIteration_exact k :
  1 ≤ B → 0 ≤ k → (k + 1) * B ≤ INT_MAX → startIteration B k = k * B.
Proof.
  intros. unfold startIteration. apply wrap32_id.
  unfold INT_MIN, INT_MAX in *. nia.
Qed.

Lemma endIteration_exact k :
  1 ≤ B → 0 ≤ k → (k + 1) * B ≤ INT_MAX →
  endIteration N B k = ((k + 1) * B) `min` N.
Proof.
  intros. unfold endIteration.
  rewrite wrap32_id by (unfold INT_MIN, INT_MAX in *; nia).
  cbv zeta. destruct (Z.gtb_spec ((k + 1) * B) N); lia.
Qed.

Lemma block_indices_seqZ k :
  block_indices N B k =
  seqZ (startIteration B k) (endIteration N B k - startIteration B k).
Proof.
  unfold block_indices. rewrite for_range_foldl. apply foldl_snoc_list.
Qed.

Lemma elem_of_block_indices k i :
  i ∈ block_indices N B k ↔ startIteration B k ≤ i < endIteration N B k.
Proof. rewrite block_indices_seqZ, elem_of_seqZ. lia. Qed.

(** A block past the last one has nothing to sum. *)
Lemma block_indices_past k :
  1 ≤ N → 1 ≤ B → M ≤ k → (k + 1) * B ≤ INT_MAX →
  endIteration N B k ≤ startIteration B k ∧ block_indices N B k = [].
Proof.
  intros HN HB Hk Hmax. pose proof (blocks_cover HN HB) as HC.
  pose proof (blocks_pos HN HB).
  rewrite block_indices_seqZ.
  rewrite startIteration_exact, endIteration_exact by lia.
  assert (N ≤ k * B) by nia.
  split; [lia |]. apply seqZ_nil. lia.
Qed.

(** The blocks [0 .. m-1] laid end to end are the samples below [m * B],
    cut at [N]. *)
Lemma blocks_concat (m : nat) :
  1 ≤ N → 1 ≤ B → M * B ≤ INT_MAX → Z.of_nat m ≤ M →
  concat (block_indices N B <$> seqZ 0 (Z.of_nat m)) = seqZ 0 ((Z.of_nat m * B) `min` N).
Proof.
  intros HN HB Hmax. pose proof (blocks_cover HN HB) as HC.
  induction m as [|m IH]; intros Hm.
  - simpl. rewrite Z.min_l by lia. done.
  - rewrite Nat2Z.inj_succ, <- Z.add_1_r.
    rewrite seqZ_app by lia. rewrite fmap_app, concat_app.
    rewrite IH by lia. simpl. rewrite app_nil_r.
    rewrite block_indices_seqZ.
    rewrite startIteration_exact, endIteration_exact by nia.
    assert (Z.of_nat m * B < N) by nia.
    rewrite (Z.min_l (Z.of_nat m * B) N) by lia.
    set (e := ((Z.of_nat m + 1) * B) `min` N).
    assert (Z.of_nat m * B ≤ e) by (unfold e; nia).
    replace (seqZ 0 e) with (seqZ 0 (Z.of_nat m * B + (e - Z.of_nat m * B)))
      by (f_equal; lia).
    rewrite seqZ_app by nia. done.
Qed.

End PartitionFacts.

(** C2. With [M = NUMBER_OF_BLOCKS] blocks, the ranges
    [[k*B, min((k+1)*B, N))] for [k] in [[0, M)] partition [[0, N)]: laid end
    to end the blocks are exactly the samples [0 .. N-1], every sample lies
    in a block, no sample lies in two blocks, the last block ends at [N],
    it is shorter than [B] when [B] does not divide [N], and when [B]
    divides [N] there are [N/B] blocks of length [B]. For [N = 10],
    [B = 3] the blocks are [[0,3) [3,6) [6,9) [9,10)]. *)
Theorem partition_exact (N B : Z) :
  1 ≤ N → 1 ≤ B → NUMBER_OF_BLOCKS N B * B ≤ INT_MAX →
  let M := NUMBER_OF_BLOCKS N B in
  concat (block_indices N B <$> seqZ 0 M) = seqZ 0 N
  ∧ (∀ i, 0 ≤ i < N ↔
       ∃ k, 0 ≤ k < M ∧ startIteration B k ≤ i < endIteration N B k)
  ∧ (∀ k1 k2 i, 0 ≤ k1 < M → 0 ≤ k2 < M →
       startIteration B k1 ≤ i < endIteration N B k1 →
       startIteration B k2 ≤ i < endIteration N B k2 → k1 = k2)
  ∧ (∀ k, 0 ≤ k < M →
       startIteration B k = k * B ∧ endIteration N B k = ((k + 1) * B) `min` N)
  ∧ endIteration N B (M - 1) = N
  ∧ (N `rem` B ≠ 0 → endIteration N B (M - 1) - startIteration B (M - 1) < B)
  ∧ (N `rem` B = 0 →
       M = N `quot` B ∧
       ∀ k, 0 ≤ k < M → endIteration N B k - startIteration B k = B)
  ∧ block_ranges 10 3 (NUMBER_OF_BLOCKS 10 3) = [(0, 3); (3, 6); (6, 9); (9, 10)].
Proof.
  intros HN HB Hmax M.
  pose proof (blocks_cover N B HN HB) as HC. pose proof (blocks_pos N B HN HB) as HP.
  fold M in HC, HP, Hmax.
  assert (Hex : ∀ k, 0 ≤ k < M →
    startIteration B k = k * B ∧ endIteration N B k = ((k + 1) * B) `min` N).
  { intros k Hk. rewrite startIteration_exact, endIteration_exact by nia. done. }
  split_and!.
  - pose proof (blocks_concat N B (Z.to_nat M) HN HB Hmax) as HQ.
    rewrite Z2Nat.id in HQ by lia. fold M in HQ.
    rewrite HQ by lia. f_equal. lia.
  - intros i. split.
    + intros Hi. exists (i `div` B).
      pose proof (Z.div_mod i B ltac:(lia)) as HD.
      pose proof (Z.mod_pos_bound i B ltac:(lia)) as HM.
      assert (0 ≤ i `div` B) by (apply Z.div_pos; lia).
      assert (i `div` B < M) by nia.
      destruct (Hex (i `div` B)) as [-> ->]; [lia |]. split; [lia | nia].
    + intros (k & Hk & Hi). destruct (Hex k Hk) as [Hs He].
      rewrite Hs, He in Hi. nia.
  - intros k1 k2 i Hk1 Hk2 H1 H2.
    destruct (Hex k1 Hk1) as [Hs1 He1]. destruct (Hex k2 Hk2) as [Hs2 He2].
    rewrite Hs1, He1 in H1. rewrite Hs2, He2 in H2. nia.
  - exact Hex.
  - destruct (Hex (M - 1)) as [_ ->]; [lia |]. lia.
  - intros Hr. destruct (Hex (M - 1)) as [-> ->]; [lia |].
    pose proof (blocks_residual N B HN HB Hr). fold M in H. lia.
  - intros Hr. destruct (blocks_exact N B HN HB Hr) as [HM1 HM2]. fold M in HM1, HM2.
    split; [done |]. intros k Hk. destruct (Hex k Hk) as [-> ->]. nia.
  - reflexivity.
Qed.

Lemma partition_exact_witness :
  concat (block_indices N_main BLOCK_SIZE_main <$>
            seqZ 0 (NUMBER_OF_BLOCKS N_main BLOCK_SIZE_main)) = seqZ 0 N_main.
Proof.
  refine (proj1 (partition_exact N_main BLOCK_SIZE_main _ _ _));
    unfold N_main, BLOCK_SIZE_main, INT_MAX; try lia.
  vm_compute. discriminate.
Defined.

(** C8. The range of block [k] is a function of [N], [B] and [k] alone:
    for [k] in [[0, M)] it is [[max(0, k*B), min((k+1)*B, N))], a non-empty
    range whose samples are those and no others; for [k >= M] it is empty.
    The index [k] is one whose products fit in an [int]. *)
Theorem block_range_contract (N B k : Z) :
  1 ≤ N → 1 ≤ B → 0 ≤ k → (k + 1) * B ≤ INT_MAX →
  let M := NUMBER_OF_BLOCKS N B in
  (k < M →
     startIteration B k = 0 `max` (k * B)
     ∧ endIteration N B k = ((k + 1) * B) `min` N
     ∧ startIteration B k < endIteration N B k
     ∧ block_indices N B k =
         seqZ (0 `max` (k * B)) (((k + 1) * B) `min` N - 0 `max` (k * B)))
  ∧ (M ≤ k →
     endIteration N B k ≤ startIteration B k ∧ block_indices N B k = []).
Proof.
  intros HN HB Hk Hmax M. split.
  - intros HkM. pose proof (blocks_cover N B HN HB) as HC. fold M in HC.
    rewrite block_indices_seqZ.
    rewrite startIteration_exact, endIteration_exact by lia.
    assert (k * B < N) by nia.
    rewrite (Z.max_r 0 (k * B)) by nia. split_and!; [done | done | nia | done].
  - intros HkM. by apply block_indices_past.
Qed.

Lemma block_range_contract_witness :
  startIteration BLOCK_SIZE_main 12 = 99684480
  ∧ endIteration N_main BLOCK_SIZE_main 12 = 100000000
  ∧ block_indices N_main BLOCK_SIZE_main 13 = [].
Proof.
  assert (H12 : 12 < NUMBER_OF_BLOCKS N_main BLOCK_SIZE_main) by (vm_compute; done).
  assert (H13 : NUMBER_OF_BLOCKS N_main BLOCK_SIZE_main ≤ 13) by (vm_compute; discriminate).
  pose proof (block_range_contract N_main BLOCK_SIZE_main 12
    ltac:(unfold N_main; lia) ltac:(unfold BLOCK_SIZE_main; lia) ltac:(lia)
    ltac:(unfold BLOCK_SIZE_main, INT_MAX; lia)) as [Hin _].
  pose proof (block_range_contract N_main BLOCK_SIZE_main 13
    ltac:(unfold N_main; lia) ltac:(unfold BLOCK_SIZE_main; lia) ltac:(lia)
    ltac:(unfold BLOCK_SIZE_main, INT_MAX; lia)) as [_ Hout].
  destruct (Hin H12) as (Hs & He & _). destruct (Hout H13) as [_ Hnil].
  split_and!; [rewrite Hs; reflexivity | rewrite He; reflexivity | exact Hnil].
Defined.

(** ** Lists of threads *)

Section Big.

Context {A : Type} (op : A → A → A) (e : A).
Context `{!Assoc (=) op, !Comm (=) op}.

Lemma big_insert (l : list A) i x :
  l !! i = Some x →
  ∃ rest, big op e l = op x rest ∧ ∀ y, big op e (<[i:=y]> l) = op y rest.
Proof.
  revert i. induction l as [|a l IH]; intros [|i] Hi; simplify_eq/=.
  - by exists (big op e l).
  - destruct (IH i Hi) as (rest & Hr & Hy). exists (op a rest). split.
    + unfold big in *. simpl. rewrite Hr.
      rewrite !(assoc op). f_equal. apply (comm op).
    + intros y. unfold big in *. simpl. rewrite (Hy y).
      rewrite !(assoc op). f_equal. apply (comm op).
Qed.

End Big.

Lemma fmap_insert_same {A B} (f : A → B) (l : list A) i x y :
  l !! i = Some x → f y = f x → f <$> <[i:=y]> l = f <$> l.
Proof.
  intros Hi Hf. rewrite list_fmap_insert, Hf.
  apply list_insert_id. by rewrite list_lookup_fmap, Hi.
Qed.

Lemma count_le_length {A} (f : A → nat) (l : list A) :
  (∀ x, f x ≤ 1)%nat → (big Nat.add 0%nat (f <$> l) ≤ length l)%nat.
Proof.
  intros Hf. unfold big. induction l as [|a l IH]; csimpl; [lia |].
  specialize (Hf a). lia.
Qed.

Lemma count_zero {A} (f : A → nat) (l : list A) :
  (∀ x, x ∈ l → f x = 0%nat) → big Nat.add 0%nat (f <$> l) = 0%nat.
Proof.
  unfold big. induction l as [|a l IH]; intros Hf; [done |].
  csimpl. rewrite (Hf a) by left. rewrite IH; [done |].
  intros x Hx. apply Hf. by right.
Qed.

Section Resume.

Context {R : Type}.
Implicit Types ts : list (worker R).

Lemma ResumeThread_length i ts : length (ResumeThread i ts) = length ts.
Proof.
  unfold ResumeThread. destruct (ts !! i); [apply length_insert | done].
Qed.

(** Resuming changes suspend counts and nothing else. *)
Lemma ResumeThread_lookup i ts j w' :
  ResumeThread i ts !! j = Some w' →
  ∃ w, ts !! j = Some w ∧ w_pc w' = w_pc w
       ∧ currentBlock w' = currentBlock w ∧ threadPi w' = threadPi w.
Proof.
  unfold ResumeThread. destruct (ts !! i) as [w|] eqn:Hi.
  - intros [(-> & <- & _)|[Hne Hj]]%list_lookup_insert_Some; eauto.
  - eauto.
Qed.

Lemma ResumeThread_fmap {B} (f : worker R → B) i ts :
  (∀ pc cb x c c', f (Worker pc cb x c) = f (Worker pc cb x c')) →
  f <$> ResumeThread i ts = f <$> ts.
Proof.
  intros Hf. unfold ResumeThread. destruct (ts !! i) as [w|] eqn:Hi; [|done].
  eapply fmap_insert_same; [done |]. destruct w; simpl. apply Hf.
Qed.

Lemma all_terminated_lookup ts :
  all_terminated ts = true ↔ ∀ j w, ts !! j = Some w → w_pc w = Terminated.
Proof.
  unfold all_terminated. rewrite forallb_forall. split.
  - intros Hall j w Hj. apply list_elem_of_lookup_2, list_elem_of_In in Hj.
    apply Hall in Hj. unfold is_terminated in Hj. by apply bool_decide_eq_true in Hj.
  - intros Hall w [j Hj]%list_elem_of_In%list_elem_of_lookup.
    unfold is_terminated. apply bool_decide_eq_true. eauto.
Qed.

End Resume.

(** ** Runs *)

Section Runs.

Variables N BLOCK_SIZE : Z.
Context {R : Type} `{Arith R}.
Variable numberOfThreads : nat.

Local Abbreviation M := (NUMBER_OF_BLOCKS N BLOCK_SIZE).
Local Abbreviation T := numberOfThreads.
Local Abbreviation step' := (step N BLOCK_SIZE (R:=R) T).
Local Abbreviation run' := (run N BLOCK_SIZE (R:=R) T).
Local Abbreviation reachable' := (reachable N BLOCK_SIZE (R:=R) T).
Local Abbreviation initial' := (initial (R:=R) T).

Lemma run_snoc sched t s : run' (sched ++ [t]) s = step' t (run' sched s).
Proof. unfold run. by rewrite foldl_app. Qed.

Lemma run_app sched1 sched2 s : run' (sched1 ++ sched2) s = run' sched2 (run' sched1 s).
Proof. unfold run. by rewrite foldl_app. Qed.

(** Induction over the states a schedule can reach. *)
Lemma reachable_ind (P : state R → Prop) :
  P initial' →
  (∀ s t, reachable' s → P s → P (step' t s)) →
  ∀ s, reachable' s → P s.
Proof.
  intros Hinit Hstep s [sched ->].
  induction sched as [|t sched IH] using rev_ind; [done |].
  rewrite run_snoc. apply Hstep; [by exists sched | done].
Qed.

Lemma create_threads_lookup id (w : worker R) :
  create_threads T !! id = Some w ↔
  w = Worker AtLoop (Z.of_nat id) r0 1%nat ∧ (id < T)%nat.
Proof.
  unfold create_threads. rewrite list_lookup_fmap, fmap_Some. split.
  - intros (i & [-> Hi]%lookup_seq & ->). done.
  - intros [-> Hi]. exists id. by rewrite lookup_seq.
Qed.

Lemma create_threads_length : length (create_threads (R:=R) T) = T.
Proof. unfold create_threads. by rewrite length_fmap, length_seq. Qed.

(** *** The cursor and the blocks the workers hold *)

Lemma cursor_of_cons e l : cursor_of T l ≤ cursor_of T (e :: l).
Proof. unfold cursor_of. destruct e; simpl; lia. Qed.

Lemma worker_ok_mono l l' (w w' : worker R) :
  cursor_of T l ≤ cursor_of T l' →
  w_pc w' = w_pc w → currentBlock w' = currentBlock w →
  worker_ok N BLOCK_SIZE T l w → worker_ok N BLOCK_SIZE T l' w'.
Proof. unfold worker_ok. intros Hc -> ->. intros (? & ? & ?). split; [lia | done]. Qed.

Lemma workers_ok_insert (ts : list (worker R)) id w' l l' :
  (∀ j w, ts !! j = Some w → worker_ok N BLOCK_SIZE T l w) →
  cursor_of T l ≤ cursor_of T l' →
  worker_ok N BLOCK_SIZE T l' w' →
  ∀ j w, <[id:=w']> ts !! j = Some w → worker_ok N BLOCK_SIZE T l' w.
Proof.
  intros Hall Hc Hw' j w [(-> & <- & _)|[Hne Hj]]%list_lookup_insert_Some; [done |].
  eapply worker_ok_mono; [done | done | done |]. eauto.
Qed.

Lemma workers_ok_resume (ts : list (worker R)) i l l' :
  (∀ j w, ts !! j = Some w → worker_ok N BLOCK_SIZE T l w) →
  cursor_of T l ≤ cursor_of T l' →
  ∀ j w, ResumeThread i ts !! j = Some w → worker_ok N BLOCK_SIZE T l' w.
Proof.
  intros Hall Hc j w' (w & Hj & Hpc & Hcb & _)%ResumeThread_lookup.
  eapply worker_ok_mono; [done | done | done |]. eauto.
Qed.

Lemma exited_resume i (ts : list (worker R)) :
  exited N BLOCK_SIZE <$> ResumeThread i ts = exited N BLOCK_SIZE <$> ts.
Proof. by apply ResumeThread_fmap. Qed.

Lemma cursor_inv_initial : cursor_inv N BLOCK_SIZE T initial'.
Proof.
  split; simpl.
  - apply create_threads_length.
  - done.
  - done.
  - intros _ id w [-> _]%create_threads_lookup. done.
  - intros id w [-> Hid]%create_threads_lookup.
    unfold worker_ok, cursor_of. simpl. split; [lia |]. split; [done | intros [|]; done].
  - unfold cursor_of. simpl. lia.
  - done.
Qed.

Hypothesis Hfits : cursor_fits N BLOCK_SIZE T.

Lemma cursor_inv_coordinator s :
  cursor_inv N BLOCK_SIZE T s → cursor_inv N BLOCK_SIZE T (calculatePi_step N BLOCK_SIZE T s).
Proof.
  intros Hinv. pose proof Hinv as [Hlen Hcur Hfresh Hcre Hws Hbd Hcl].
  (* after the assignment the coordinator leaves the cursor alone: it
     resumes a thread, or touches no thread at all *)
  assert (Hres : ∀ i evs c l',
    c_pc s ≠ CSetCursor → c ≠ CSetCursor → claimed l' = claimed (log s) →
    cursor_inv N BLOCK_SIZE T
      (State (nextBlock s) (pi s) (ResumeThread i (threadsArray s)) evs c l')).
  { intros i evs c l' Hc Hc' Hl'.
    assert (Hcursor : cursor_of T l' = cursor_of T (log s))
      by (unfold cursor_of; by rewrite Hl').
    split; simpl; rewrite ?Hcursor, ?Hl'; try done.
    - by rewrite ResumeThread_length.
    - intros _. by apply Hcur.
    - eapply workers_ok_resume; [done | lia].
    - by rewrite exited_resume. }
  assert (Hsame : ∀ p evs c l',
    c_pc s ≠ CSetCursor → c ≠ CSetCursor → claimed l' = claimed (log s) →
    cursor_inv N BLOCK_SIZE T (State (nextBlock s) p (threadsArray s) evs c l')).
  { intros p evs c l' Hc Hc' Hl'.
    assert (Hcursor : cursor_of T l' = cursor_of T (log s))
      by (unfold cursor_of; by rewrite Hl').
    split; simpl; rewrite ?Hcursor, ?Hl'; try done.
    - intros _. by apply Hcur.
    - intros j w Hw. eapply worker_ok_mono; [| done | done | by eapply Hws]. lia. }
  unfold calculatePi_step.
  destruct (c_pc s) eqn:Hcpc; repeat case_match; try exact Hinv;
    try (first [apply Hres | apply Hsame]; by rewrite ?Hcpc).
  (* the assignment *)
  specialize (Hfresh eq_refl). rewrite Hfresh in *.
  split; simpl; try done.
  intros _. unfold cursor_of. simpl. lia.
Qed.

(** A step of a worker that keeps its block and makes no claim. *)
Lemma cursor_inv_local (s : state R) id (w w' : worker R) pi' evs' l' :
  cursor_inv N BLOCK_SIZE T s →
  threadsArray s !! id = Some w → suspendCount w = O →
  currentBlock w' = currentBlock w →
  claimed l' = claimed (log s) →
  worker_ok N BLOCK_SIZE T (log s) w' →
  cursor_inv N BLOCK_SIZE T
    (State (nextBlock s) pi' (<[id:=w']> (threadsArray s)) evs' (c_pc s) l').
Proof.
  intros [Hlen Hcur Hfresh Hcre Hws Hbd Hcl] Hw Hsc Hcb Hl Hok.
  assert (Hpost : c_pc s ≠ CSetCursor) by (intros Hc; by eapply Hcre).
  assert (Hcursor : cursor_of T l' = cursor_of T (log s))
    by (unfold cursor_of; by rewrite Hl).
  split; simpl.
  - by rewrite length_insert.
  - intros _. rewrite Hcursor. by apply Hcur.
  - done.
  - done.
  - eapply workers_ok_insert; [done | lia |].
    eapply worker_ok_mono; [| done | done | done]. lia.
  - rewrite Hcursor.
    rewrite (fmap_insert_same _ _ _ w); [done | done |].
    unfold exited. by rewrite Hcb.
  - by rewrite Hl.
Qed.

Lemma cursor_inv_worker id s :
  cursor_inv N BLOCK_SIZE T s →
  cursor_inv N BLOCK_SIZE T (calculateIteration_step N BLOCK_SIZE id s).
Proof.
  intros Hinv. pose proof Hinv as [Hlen Hcur Hfresh Hcre Hws Hbd Hcl].
  unfold calculateIteration_step.
  destruct (threadsArray s !! id) as [w|] eqn:Hw; [|done].
  destruct (suspendCount w) eqn:Hsc; [|done].
  assert (Hpost : c_pc s ≠ CSetCursor) by (intros Hc; by eapply Hcre).
  destruct (Hws _ _ Hw) as (Hcb & Hbody & Hexit).
  assert (Hlocal : ∀ pc' x' c' pi' evs' l',
    claimed l' = claimed (log s) →
    (in_body pc' = true → currentBlock w ≤ M) →
    (pc' = AtFold ∨ pc' = Terminated → M < currentBlock w) →
    cursor_inv N BLOCK_SIZE T
      (State (nextBlock s) pi'
         (<[id:=Worker pc' (currentBlock w) x' c']> (threadsArray s)) evs' (c_pc s) l')).
  { intros. by eapply (cursor_inv_local s id w). }
  destruct (w_pc w) eqn:Hpc.
  - (* the test of the loop *)
    unfold loop_guard. destruct (Z.leb_spec (currentBlock w) M).
    + apply Hlocal; [done | done | intros [|]; done].
    + apply Hlocal; [done | done | intros; lia].
  - apply Hlocal; [done | auto | intros [|]; done].
  - destruct (nextBlock s <=? M); (apply Hlocal; [done | auto | intros [|]; done]).
  - apply Hlocal; [done | auto | intros [|]; done].
  - (* the claim *)
    specialize (Hcur Hpost). specialize (Hbody eq_refl).
    unfold fetch_add.
    destruct (big_insert Nat.add O (exited N BLOCK_SIZE <$> threadsArray s) id
                (exited N BLOCK_SIZE w)) as (rest & Hrest & Hins).
    { by rewrite list_lookup_fmap, Hw. }
    pose proof (count_le_length (exited N BLOCK_SIZE) (threadsArray s)) as Hle.
    rewrite Hrest in Hbd, Hle. rewrite Hlen in Hle.
    assert (exited N BLOCK_SIZE w = O) as Hex0.
    { unfold exited. destruct (Z.ltb_spec M (currentBlock w)); [lia | done]. }
    rewrite Hex0 in *. simpl in Hbd, Hle.
    assert (Hrest_le : (rest ≤ T)%nat).
    { apply Hle. intros x. unfold exited. destruct (_ <? _); lia. }
    unfold cursor_fits in Hfits.
    assert (Hnowrap : wrap32 (nextBlock s + 1) = nextBlock s + 1).
    { apply wrap32_id. unfold INT_MIN. lia. }
    split; csimpl.
    + by rewrite length_insert.
    + intros _. rewrite Hnowrap, Hcur. unfold cursor_of. simpl. lia.
    + done.
    + done.
    + eapply workers_ok_insert; [done | apply cursor_of_cons |].
      unfold worker_ok, cursor_of in *. simpl.
      split; [lia | split; [done | intros [|]; done]].
    + rewrite list_fmap_insert, Hins.
      unfold exited at 1. simpl.
      unfold cursor_of in *. simpl.
      destruct (Z.ltb_spec M (nextBlock s)); lia.
    + rewrite Hcl. rewrite Nat2Z.inj_succ, <- Z.add_1_r.
      rewrite seqZ_app by lia. simpl. rewrite reverse_app. simpl.
      unfold cursor_of in Hcur. rewrite Hcur. done.
  - apply Hlocal; [done | done | auto].
  - done.
Qed.

Lemma cursor_inv_reachable s : reachable' s → cursor_inv N BLOCK_SIZE T s.
Proof.
  revert s. apply reachable_ind; [apply cursor_inv_initial |].
  intros s [|id] _ Hinv; [by apply cursor_inv_coordinator | by apply cursor_inv_worker].
Qed.

(** *** The assignment to the cursor *)

Lemma calculateIteration_step_initial id : calculateIteration_step N BLOCK_SIZE id initial' = initial'.
Proof.
  unfold calculateIteration_step. simpl.
  destruct (create_threads T !! id) as [w|] eqn:Hw; [|done].
  apply create_threads_lookup in Hw as [-> _]. done.
Qed.

Lemma last_cons_Some {A} (x y : A) l : last l = Some x → last (y :: l) = Some x.
Proof. destruct l; [done |]. done. Qed.

Lemma store_inv_step t s : store_inv T s → store_inv T (step' t s).
Proof.
  intros [Hpre Hpost]. destruct (decide (c_pc s = CSetCursor)) as [Hc|Hc].
  - rewrite (Hpre Hc). destruct t as [|id]; simpl.
    + unfold calculatePi_step. simpl. split; [done |]. done.
    + rewrite calculateIteration_step_initial. split; [done |]. done.
  - destruct (Hpost Hc) as [Hst Hlast]. clear Hpre Hpost.
    assert (Hgoal : ∀ s', c_pc s' ≠ CSetCursor →
      stores (log s') = stores (log s) →
      (log s' = log s ∨ ∃ e, log s' = e :: log s) → store_inv T s').
    { intros s' Hc' Hs' Hl'. split; [done |]. intros _. rewrite Hs'. split; [done |].
      destruct Hl' as [->|[e ->]]; [done | by apply last_cons_Some]. }
    destruct t as [|id]; simpl.
    + unfold calculatePi_step.
      destruct (c_pc s) eqn:Hcpc; try done;
        repeat case_match; apply Hgoal; simpl; rewrite ?Hcpc; eauto; try done.
      all: by destruct (_ <=? _).
    + unfold calculateIteration_step, fetch_add.
      repeat case_match; apply Hgoal; simpl; eauto.
Qed.

Lemma store_inv_reachable s : reachable' s → store_inv T s.
Proof.
  revert s. apply reachable_ind; [by split | ].
  intros s t _. apply store_inv_step.
Qed.

(** *** The hand-over of the blocks *)

Lemma occurrences_cons k id k' l :
  occurrences k ((id, k') :: l) =
  ((if (k' =? k)%Z then 1 else 0) + occurrences k l)%nat.
Proof.
  unfold occurrences. rewrite filter_cons. simpl.
  destruct (Z.eqb_spec k' k); case_decide; simpl; done.
Qed.

Lemma holding_resume k i (ts : list (worker R)) :
  holding k <$> ResumeThread i ts = holding k <$> ts.
Proof. by apply ResumeThread_fmap. Qed.

Lemma dispatch_cons e l : dispatch T l ⊆ dispatch T (e :: l).
Proof.
  unfold dispatch. intros p Hp. destruct e; simpl; try done.
  rewrite reverse_cons.
  apply elem_of_app in Hp as [Hp|Hp]; apply elem_of_app; [by left |].
  right. apply elem_of_app. by left.
Qed.

Lemma foldr_add_acc (l : list nat) (a : nat) :
  foldr Nat.add a l = (foldr Nat.add O l + a)%nat.
Proof. induction l as [|x l IH]; simpl; [done |]. rewrite IH. lia. Qed.

Lemma holding_initial k (n : nat) :
  big Nat.add O (holding k <$> create_threads (R:=R) n) =
  if (0 <=? k) && (k <? Z.of_nat n) then 1%nat else 0%nat.
Proof.
  unfold create_threads. rewrite <- list_fmap_compose.
  induction n as [|n IH].
  - simpl. destruct (Z.leb_spec 0 k), (Z.ltb_spec k (Z.of_nat 0)); simpl; lia.
  - rewrite seq_S, fmap_app. unfold big in *. rewrite foldr_app. simpl.
    unfold holding at 1. simpl.
    rewrite foldr_add_acc, IH.
    destruct (Z.leb_spec 0 k), (Z.ltb_spec k (Z.of_nat n)),
      (Z.ltb_spec k (Z.of_nat (S n))), (Z.eqb_spec (Z.of_nat n) k); simpl; lia.
Qed.

Lemma dispatch_inv_initial : dispatch_inv N BLOCK_SIZE T initial'.
Proof.
  split; simpl.
  - intros k. rewrite holding_initial. unfold cursor_of. simpl.
    by rewrite Z.add_0_r.
  - intros id w [-> Hid]%create_threads_lookup. simpl.
    unfold dispatch, initial_blocks. simpl. rewrite app_nil_r.
    apply list_elem_of_fmap. exists id. split; [done |].
    apply elem_of_seq. lia.
  - intros id k Hin. by apply elem_of_nil in Hin.
Qed.

Lemma dispatch_inv_coordinator s :
  dispatch_inv N BLOCK_SIZE T s →
  dispatch_inv N BLOCK_SIZE T (calculatePi_step N BLOCK_SIZE T s).
Proof.
  intros [Hcount Hown Hcomp].
  assert (Hres : ∀ i nb p evs c l',
    claimed l' = claimed (log s) → computed l' = computed (log s) →
    dispatch_inv N BLOCK_SIZE T (State nb p (ResumeThread i (threadsArray s)) evs c l')).
  { intros i nb p evs c l' Hcl Hcp. unfold dispatch, cursor_of in *.
    split; simpl; unfold dispatch, cursor_of; rewrite ?Hcl, ?Hcp.
    - intros k. rewrite holding_resume. apply Hcount.
    - intros id w' (w & Hw & _ & -> & _)%ResumeThread_lookup. by apply Hown.
    - done. }
  assert (Hsame : ∀ nb p evs c l',
    claimed l' = claimed (log s) → computed l' = computed (log s) →
    dispatch_inv N BLOCK_SIZE T (State nb p (threadsArray s) evs c l')).
  { intros nb p evs c l' Hcl Hcp. unfold dispatch, cursor_of in *.
    split; simpl; unfold dispatch, cursor_of; rewrite ?Hcl, ?Hcp; done. }
  unfold calculatePi_step.
  destruct (c_pc s) eqn:Hcpc; repeat case_match;
    first [by apply Hres | by apply Hsame | by split].
Qed.

Lemma dispatch_inv_local (s : state R) id (w w' : worker R) nb' pi' evs' l' :
  dispatch_inv N BLOCK_SIZE T s →
  threadsArray s !! id = Some w →
  currentBlock w' = currentBlock w → in_body (w_pc w') = in_body (w_pc w) →
  claimed l' = claimed (log s) → computed l' = computed (log s) →
  dispatch_inv N BLOCK_SIZE T
    (State nb' pi' (<[id:=w']> (threadsArray s)) evs' (c_pc s) l').
Proof.
  intros [Hcount Hown Hcomp] Hw Hcb Hbody Hcl Hcp.
  split; simpl; unfold dispatch, cursor_of in *; rewrite ?Hcl, ?Hcp.
  - intros k. rewrite (fmap_insert_same _ _ _ w); [apply Hcount | done |].
    unfold holding. by rewrite Hcb, Hbody.
  - intros j w'' [(-> & <- & _)|[Hne Hj]]%list_lookup_insert_Some; [| by eauto].
    rewrite Hcb. by eapply Hown.
  - done.
Qed.

Lemma dispatch_inv_worker id s :
  cursor_inv N BLOCK_SIZE T s →
  dispatch_inv N BLOCK_SIZE T s →
  dispatch_inv N BLOCK_SIZE T (calculateIteration_step N BLOCK_SIZE id s).
Proof.
  intros [Hlen Hcur Hfresh Hcre Hws Hbd Hcl] Hinv.
  pose proof Hinv as [Hcount Hown Hcomp].
  unfold calculateIteration_step.
  destruct (threadsArray s !! id) as [w|] eqn:Hw; [|done].
  destruct (suspendCount w) eqn:Hsc; [|done].
  assert (Hpost : c_pc s ≠ CSetCursor) by (intros Hc; by eapply Hcre).
  destruct (Hws _ _ Hw) as (Hcb & Hbody & Hexit).
  destruct (w_pc w) eqn:Hpc;
    try (destruct (nextBlock s <=? M);
         by eapply (dispatch_inv_local s id w); rewrite ?Hpc).
  - (* the test of the loop *)
    unfold loop_guard. destruct (Z.leb_spec (currentBlock w) M);
      [| by eapply (dispatch_inv_local s id w); rewrite ?Hpc].
    destruct (big_insert Nat.add O (holding (currentBlock w) <$> threadsArray s) id
                (holding (currentBlock w) w)) as (rest & Hrest & Hins).
    { by rewrite list_lookup_fmap, Hw. }
    split; simpl.
    + intros k. rewrite occurrences_cons.
      destruct (big_insert Nat.add O (holding k <$> threadsArray s) id
                  (holding k w)) as (rest' & Hrest' & Hins').
      { by rewrite list_lookup_fmap, Hw. }
      rewrite list_fmap_insert, Hins'. pose proof (Hcount k) as Hk.
      rewrite Hrest' in Hk. unfold cursor_of in *. simpl. rewrite <- Hk.
      unfold holding. rewrite Hpc. simpl. destruct (currentBlock w =? k); lia.
    + intros j w'' [(-> & <- & _)|[Hne Hj]]%list_lookup_insert_Some.
      * simpl. apply dispatch_cons. by eapply Hown.
      * apply dispatch_cons. by eapply Hown.
    + intros j k [[= -> ->]|Hin]%elem_of_cons.
      * split; [| done]. apply dispatch_cons. by eapply Hown.
      * destruct (Hcomp j k Hin). split; [by apply dispatch_cons | done].
  - (* the claim *)
    specialize (Hcur Hpost). unfold fetch_add.
    split; simpl.
    + intros k.
      destruct (big_insert Nat.add O (holding k <$> threadsArray s) id
                  (holding k w)) as (rest' & Hrest' & Hins').
      { by rewrite list_lookup_fmap, Hw. }
      rewrite list_fmap_insert, Hins'. pose proof (Hcount k) as Hk.
      rewrite Hrest' in Hk. unfold holding in Hk |- *. rewrite Hpc in Hk. simpl in *.
      unfold cursor_of in *. simpl. rewrite Hcur.
      destruct (Z.leb_spec 0 k),
        (Z.ltb_spec k (Z.of_nat T + Z.of_nat (length (claimed (log s))))),
        (Z.ltb_spec k (Z.of_nat T + Z.of_nat (S (length (claimed (log s)))))),
        (Z.eqb_spec (Z.of_nat T + Z.of_nat (length (claimed (log s)))) k);
        simpl in *; lia.
    + intros j w'' [(-> & <- & _)|[Hne Hj]]%list_lookup_insert_Some.
      * simpl. unfold dispatch. simpl. rewrite reverse_cons.
        apply elem_of_app. right. apply elem_of_app. right. by apply list_elem_of_singleton.
      * apply dispatch_cons. by eapply Hown.
    + intros j k Hin. destruct (Hcomp j k Hin). split; [by apply dispatch_cons | done].
  - done.
Qed.

Lemma dispatch_inv_reachable s : reachable' s → dispatch_inv N BLOCK_SIZE T s.
Proof.
  revert s. apply reachable_ind; [apply dispatch_inv_initial |].
  intros s [|id] Hs Hinv; [by apply dispatch_inv_coordinator |].
  apply dispatch_inv_worker; [by apply cursor_inv_reachable | done].
Qed.

Lemma initial_blocks_snd (n : nat) : (initial_blocks n).*2 = seqZ 0 (Z.of_nat n).
Proof.
  unfold initial_blocks. rewrite <- list_fmap_compose.
  induction n as [|n IH]; [done |].
  rewrite seq_S, fmap_app, IH, seqZ_S. done.
Qed.

(** The [j]-th block handed over is block [j]. *)
Lemma dispatch_sequence s :
  reachable' s → (dispatch T (log s)).*2 = seqZ 0 (cursor_of T (log s)).
Proof.
  intros Hs. destruct (cursor_inv_reachable s Hs) as [_ _ _ _ _ _ Hcl].
  unfold dispatch, cursor_of. rewrite fmap_app, fmap_reverse, Hcl, reverse_involutive.
  rewrite initial_blocks_snd, seqZ_app by lia. done.
Qed.

Lemma terminated_cursor s :
  reachable' s → (1 ≤ T)%nat → all_terminated (threadsArray s) = true →
  M + 1 < cursor_of T (log s).
Proof.
  intros Hs HT Hall. destruct (cursor_inv_reachable s Hs) as [Hlen _ _ _ Hws _ _].
  destruct (lookup_lt_is_Some_2 (threadsArray s) O) as [w Hw]; [lia |].
  destruct (Hws _ _ Hw) as (Hcb & _ & Hexit).
  rewrite all_terminated_lookup in Hall. specialize (Hall _ _ Hw).
  specialize (Hexit (or_intror Hall)). lia.
Qed.

Lemma computed_at_most_once s k :
  reachable' s → (occurrences k (computed (log s)) ≤ 1)%nat.
Proof.
  intros Hs. destruct (dispatch_inv_reachable s Hs) as [Hcount _ _].
  specialize (Hcount k). destruct (_ && _); lia.
Qed.

Lemma computed_once_terminated s k :
  reachable' s → (1 ≤ T)%nat → all_terminated (threadsArray s) = true →
  0 ≤ k ≤ M → occurrences k (computed (log s)) = 1%nat.
Proof.
  intros Hs HT Hall Hk. pose proof (terminated_cursor s Hs HT Hall) as Hcur.
  destruct (cursor_inv_reachable s Hs) as [_ _ _ _ Hws _ _].
  destruct (dispatch_inv_reachable s Hs) as [Hcount _ _].
  specialize (Hcount k). rewrite count_zero in Hcount.
  - destruct (Z.leb_spec 0 k), (Z.ltb_spec k (cursor_of T (log s))); simpl in *; lia.
  - intros w [j Hw]%list_elem_of_lookup.
    rewrite all_terminated_lookup in Hall. specialize (Hall _ _ Hw).
    destruct (Hws _ _ Hw) as (_ & _ & Hexit). specialize (Hexit (or_intror Hall)).
    unfold holding. destruct (Z.eqb_spec (currentBlock w) k); [lia |].
    by rewrite andb_false_r.
Qed.

End Runs.

(** C1. Under every schedule the values returned by
    [nextBlock.fetch_add(1)] are, in the order of the calls, [T], [T+1],
    [T+2], ... without repetition or gap, so the first [M - T] of them are
    exactly [T .. M-1]; with the blocks [0 .. T-1] the workers start with,
    the [j]-th block handed over is block [j], no block is handed over
    twice, a block is summed only by the worker that received it and never
    twice, and when all workers have terminated every block of [[0, M)] has
    been handed over once and summed once. *)
Theorem dispatch_exactly_once {R : Type} `{Arith R} (N B : Z) (T : nat) (sched : list thread) :
  cursor_fits N B T →
  let s := run N B T sched (initial (R:=R) T) in
  let M := NUMBER_OF_BLOCKS N B in
  let returned := reverse (claimed (log s)).*2 in
  returned = seqZ (Z.of_nat T) (Z.of_nat (length returned))
  ∧ NoDup returned
  ∧ (Z.of_nat T ≤ M → M - Z.of_nat T ≤ Z.of_nat (length returned) →
       take (Z.to_nat (M - Z.of_nat T)) returned = seqZ (Z.of_nat T) (M - Z.of_nat T))
  ∧ (dispatch T (log s)).*2 = seqZ 0 (Z.of_nat T + Z.of_nat (length returned))
  ∧ NoDup (dispatch T (log s)).*2
  ∧ (∀ id k, (id, k) ∈ computed (log s) → (id, k) ∈ dispatch T (log s))
  ∧ (∀ k, (occurrences k (computed (log s)) ≤ 1)%nat)
  ∧ ((1 ≤ T)%nat → all_terminated (threadsArray s) = true →
       ∀ k, 0 ≤ k < M →
         (∃ id, dispatch T (log s) !! Z.to_nat k = Some (id, k))
         ∧ occurrences k (computed (log s)) = 1%nat).
Proof.
  intros Hfits s M returned.
  assert (Hs : reachable N B T s) by (by exists sched).
  pose proof (cursor_inv_reachable N B T Hfits s Hs) as [_ _ _ _ _ _ Hcl].
  pose proof (dispatch_sequence N B T Hfits s Hs) as Hseq.
  assert (Hlen : length returned = length (claimed (log s))).
  { unfold returned. by rewrite length_reverse, length_fmap. }
  assert (Hret : returned = seqZ (Z.of_nat T) (Z.of_nat (length returned))).
  { unfold returned at 1. rewrite Hcl, reverse_involutive. by rewrite Hlen. }
  split_and!.
  - exact Hret.
  - rewrite Hret. apply NoDup_seqZ.
  - intros HT Hn. rewrite Hret.
    replace (Z.of_nat (length returned))
      with ((M - Z.of_nat T) + (Z.of_nat (length returned) - (M - Z.of_nat T))) by lia.
    rewrite seqZ_app by lia. rewrite take_app_length'; [done |].
    rewrite length_seqZ. done.
  - rewrite Hseq. unfold cursor_of. by rewrite Hlen.
  - rewrite Hseq. apply NoDup_seqZ.
  - intros id k Hin.
    by destruct (dispatch_inv_reachable N B T Hfits s Hs) as [_ _ Hcomp]; apply Hcomp.
  - intros k. by apply (computed_at_most_once N B T Hfits).
  - intros HT Hall k Hk.
    pose proof (terminated_cursor N B T Hfits s Hs HT Hall) as Hcur. fold M in Hcur.
    split.
    + assert (Hlk : (dispatch T (log s)).*2 !! Z.to_nat k = Some k).
      { rewrite Hseq. rewrite lookup_seqZ. lia. }
      rewrite list_lookup_fmap in Hlk.
      destruct (dispatch T (log s) !! Z.to_nat k) as [[id k']|]; simplify_eq/=.
      by exists id.
    + apply (computed_once_terminated N B T Hfits); [done | done | done | lia].
Qed.

Section Cursor.

Variables N BLOCK_SIZE : Z.
Context {R : Type} `{Arith R}.
Variable numberOfThreads : nat.

Local Abbreviation M := (NUMBER_OF_BLOCKS N BLOCK_SIZE).
Local Abbreviation T := numberOfThreads.
Local Abbreviation step' := (step N BLOCK_SIZE (R:=R) T).
Local Abbreviation run' := (run N BLOCK_SIZE (R:=R) T).
Local Abbreviation reachable' := (reachable N BLOCK_SIZE (R:=R) T).
Local Abbreviation initial' := (initial (R:=R) T).

Hypothesis Hfits : cursor_fits N BLOCK_SIZE T.

(** A claim by a worker that can run: one step reads the cursor, leaves
    it one higher and gives the worker the value read. *)
Lemma claim_step s id w :
  reachable' s →
  threadsArray s !! id = Some w → suspendCount w = O → w_pc w = AtClaim →
  let s' := step' (WorkerThread id) s in
  nextBlock s' = nextBlock s + 1
  ∧ currentBlock <$> threadsArray s' !! id = Some (nextBlock s)
  ∧ log s' = EvClaim id (nextBlock s) :: log s.
Proof.
  intros Hs Hw Hsc Hpc. simpl. unfold calculateIteration_step. rewrite Hw, Hsc, Hpc.
  pose proof (cursor_inv_reachable N BLOCK_SIZE T Hfits s Hs)
    as [Hlen Hcur Hfresh Hcre Hws Hbd Hcl].
  assert (Hpost : c_pc s ≠ CSetCursor).
  { intros Hc. eapply Hcre; [done | done | done]. }
  pose proof (count_le_length (exited N BLOCK_SIZE) (threadsArray s)) as Hle.
  rewrite Hlen in Hle.
  assert (Hcount : (big Nat.add O (exited N BLOCK_SIZE <$> threadsArray s) ≤ T)%nat).
  { apply Hle. intros x. unfold exited. destruct (_ <? _); lia. }
  specialize (Hcur Hpost). unfold cursor_fits in Hfits.
  unfold fetch_add. simpl. split_and!.
  - apply wrap32_id. unfold INT_MIN, cursor_of in *. lia.
  - rewrite list_lookup_insert_eq; [done |]. by eapply lookup_lt_Some.
  - done.
Qed.

(** Only the assignment of line 173 and the claims change the cursor. *)
Lemma step_cursor s t :
  reachable' s →
  nextBlock (step' t s) = nextBlock s
  ∨ (t = Coordinator ∧ c_pc s = CSetCursor ∧ nextBlock (step' t s) = Z.of_nat T)
  ∨ (∃ id w, t = WorkerThread id ∧ threadsArray s !! id = Some w
       ∧ suspendCount w = O ∧ w_pc w = AtClaim
       ∧ nextBlock (step' t s) = nextBlock s + 1).
Proof.
  intros Hs. destruct t as [|id]; simpl.
  - unfold calculatePi_step. destruct (c_pc s) eqn:Hc; repeat case_match; simpl; auto.
  - destruct (threadsArray s !! id) as [w|] eqn:Hw;
      [| unfold calculateIteration_step; rewrite Hw; auto].
    destruct (suspendCount w) eqn:Hsc;
      [| unfold calculateIteration_step; rewrite Hw, Hsc; auto].
    destruct (decide (w_pc w = AtClaim)) as [Hpc|Hpc].
    + right. right. exists id, w.
      destruct (claim_step s id w Hs Hw Hsc Hpc) as (Hnb & _). done.
    + left. unfold calculateIteration_step. rewrite Hw, Hsc.
      destruct (w_pc w); try done; repeat case_match; done.
Qed.

Lemma cursor_step_mono s t : reachable' s → nextBlock s ≤ nextBlock (step' t s).
Proof.
  intros Hs. destruct (step_cursor s t Hs) as [->|[(_ & Hc & ->)|(id & w & _ & _ & _ & _ & ->)]];
    [lia | | lia].
  destruct (store_inv_reachable N BLOCK_SIZE T s Hs) as [Hpre _].
  rewrite (Hpre Hc). simpl. lia.
Qed.

Lemma cursor_run_mono sched sched' :
  nextBlock (run' sched initial') ≤ nextBlock (run' (sched ++ sched') initial').
Proof.
  induction sched' as [|t sched' IH] using rev_ind.
  - rewrite app_nil_r. lia.
  - rewrite app_assoc, run_snoc.
    etrans; [exact IH |]. apply cursor_step_mono. by eexists.
Qed.

Lemma cursor_range s :
  reachable' s → c_pc s ≠ CSetCursor →
  Z.of_nat T ≤ nextBlock s ≤ Z.of_nat T `max` (M + 1) + Z.of_nat T.
Proof.
  intros Hs Hc.
  pose proof (cursor_inv_reachable N BLOCK_SIZE T Hfits s Hs)
    as [Hlen Hcur _ _ _ Hbd _].
  pose proof (count_le_length (exited N BLOCK_SIZE) (threadsArray s)) as Hle.
  rewrite Hlen in Hle.
  assert (Hcount : (big Nat.add O (exited N BLOCK_SIZE <$> threadsArray s) ≤ T)%nat).
  { apply Hle. intros x. unfold exited. destruct (_ <? _); lia. }
  rewrite (Hcur Hc). unfold cursor_of in *. lia.
Qed.

End Cursor.






(** ** The body of the loop *)

Section Body.

Variables N B : Z.
Context {R : Type} `{Arith R}.

Lemma sum_block_foldl k (x : R) :
  sum_block N B k x = foldl (λ a i, radd a (integrand N i)) x (block_indices N B k).
Proof.
  unfold sum_block. rewrite for_range_foldl. by rewrite block_indices_seqZ.
Qed.

Lemma sum_block_empty k (x : R) :
  1 ≤ N → 1 ≤ B → NUMBER_OF_BLOCKS N B ≤ k → (k + 1) * B ≤ INT_MAX →
  sum_block N B k x = x.
Proof.
  intros HN HB Hk Hmax. rewrite sum_block_foldl.
  destruct (block_indices_past N B k HN HB Hk Hmax) as [_ ->]. done.
Qed.

Lemma block_indices_in_range k i :
  1 ≤ N → 1 ≤ B → 0 ≤ k → (k + 1) * B ≤ INT_MAX →
  i ∈ block_indices N B k → 0 ≤ i < N.
Proof.
  intros HN HB Hk Hmax. rewrite elem_of_block_indices.
  rewrite startIteration_exact, endIteration_exact by done. nia.
Qed.

End Body.

(** C3, as the program has it. The body of the loop runs while
    [currentBlock <= M]: a worker between its summation and its next claim
    holds a block in [[0, M]], a worker at or past the fold holds an index
    above [M]. At the test of the loop a worker with [currentBlock <= M]
    sums the block, and its next step signals its event; for
    [currentBlock = M] the range is empty and the partial sum stays as it
    is, but the event is signaled all the same. After the signal the
    worker suspends itself if the cursor is at most [M], and claims. With
    [currentBlock > M] the worker goes to the fold, and its next step adds
    its partial sum to the accumulator. *)
Theorem loop_body_up_to_M {R : Type} `{Arith R}
    (N B : Z) (T : nat) (sched : list thread) (id : nat) (w : worker R) :
  valid_constants N B → cursor_fits N B T →
  let M := NUMBER_OF_BLOCKS N B in
  let s := run N B T sched (initial (R:=R) T) in
  threadsArray s !! id = Some w →
  (in_body (w_pc w) = true → 0 ≤ currentBlock w ≤ M)
  ∧ (w_pc w = AtFold ∨ w_pc w = Terminated → M < currentBlock w)
  ∧ (suspendCount w = O → w_pc w = AtLoop →
       let s1 := step N B T (WorkerThread id) s in
       let s2 := step N B T (WorkerThread id) s1 in
       (currentBlock w ≤ M →
          threadsArray s1 !! id =
            Some (Worker AtSetEvent (currentBlock w)
                    (sum_block N B (currentBlock w) (threadPi w)) O)
          ∧ log s1 = EvCompute id (currentBlock w) :: log s
          ∧ (currentBlock w = M →
               sum_block N B (currentBlock w) (threadPi w) = threadPi w)
          ∧ eventsArray s2 = <[id:=true]> (eventsArray s)
          ∧ log s2 = EvSetEvent id :: log s1)
       ∧ (M < currentBlock w →
          threadsArray s1 !! id =
            Some (Worker AtFold (currentBlock w) (threadPi w) O)
          ∧ log s1 = log s ∧ eventsArray s1 = eventsArray s
          ∧ pi s2 = radd (pi s) (threadPi w)
          ∧ log s2 = EvFold id :: log s))
  ∧ (suspendCount w = O → w_pc w = AtCheck →
       threadsArray (step N B T (WorkerThread id) s) !! id =
         Some (Worker (if nextBlock s <=? M then AtSuspend else AtClaim)
                 (currentBlock w) (threadPi w) O))
  ∧ (suspendCount w = O → w_pc w = AtSuspend →
       threadsArray (step N B T (WorkerThread id) s) !! id =
         Some (Worker AtClaim (currentBlock w) (threadPi w) 1%nat)).
Proof.
  intros (HN & HB & Hmax) Hfits M s Hw. subst M.
  assert (Hs : reachable N B T s) by (by exists sched).
  destruct (cursor_inv_reachable N B T Hfits s Hs) as [_ _ _ _ Hws _ _].
  destruct (Hws _ _ Hw) as (Hcb & Hbody & Hexit).
  assert (Hlt : (id < length (threadsArray s))%nat) by (by eapply lookup_lt_Some).
  split_and!.
  - intros Hin. split; [lia | by apply Hbody].
  - exact Hexit.
  - intros Hsc Hpc s1 s2. split.
    + intros Hle.
      assert (Hs1 : s1 = State (nextBlock s) (pi s)
                (<[id:=Worker AtSetEvent (currentBlock w)
                         (sum_block N B (currentBlock w) (threadPi w)) O]> (threadsArray s))
                (eventsArray s) (c_pc s) (EvCompute id (currentBlock w) :: log s)).
      { unfold s1. simpl. unfold calculateIteration_step. rewrite Hw, Hsc, Hpc.
        unfold loop_guard.
        destruct (Z.leb_spec (currentBlock w) (NUMBER_OF_BLOCKS N B)); [done | lia]. }
      assert (Hlk : threadsArray s1 !! id =
                Some (Worker AtSetEvent (currentBlock w)
                        (sum_block N B (currentBlock w) (threadPi w)) O)).
      { rewrite Hs1. simpl. by rewrite list_lookup_insert_eq. }
      assert (Hs2 : s2 = calculateIteration_step N B id s1) by done.
      unfold calculateIteration_step in Hs2. rewrite Hlk in Hs2. simpl in Hs2.
      split_and!.
      * exact Hlk.
      * by rewrite Hs1.
      * intros HM. apply sum_block_empty; [done | done | lia |].
        rewrite HM. exact Hmax.
      * rewrite Hs2. simpl. by rewrite Hs1.
      * by rewrite Hs2.
    + intros Hgt.
      assert (Hs1 : s1 = State (nextBlock s) (pi s)
                (<[id:=Worker AtFold (currentBlock w) (threadPi w) O]> (threadsArray s))
                (eventsArray s) (c_pc s) (log s)).
      { unfold s1. simpl. unfold calculateIteration_step. rewrite Hw, Hsc, Hpc.
        unfold loop_guard.
        destruct (Z.leb_spec (currentBlock w) (NUMBER_OF_BLOCKS N B)); [lia | done]. }
      assert (Hlk : threadsArray s1 !! id =
                Some (Worker AtFold (currentBlock w) (threadPi w) O)).
      { rewrite Hs1. simpl. by rewrite list_lookup_insert_eq. }
      assert (Hs2 : s2 = calculateIteration_step N B id s1) by done.
      unfold calculateIteration_step in Hs2. rewrite Hlk in Hs2. simpl in Hs2.
      split_and!.
      * exact Hlk.
      * by rewrite Hs1.
      * by rewrite Hs1.
      * rewrite Hs2. simpl. by rewrite Hs1.
      * rewrite Hs2. simpl. by rewrite Hs1.
  - intros Hsc Hpc. simpl. unfold calculateIteration_step. rewrite Hw, Hsc, Hpc.
    simpl. by rewrite list_lookup_insert_eq.
  - intros Hsc Hpc. simpl. unfold calculateIteration_step. rewrite Hw, Hsc, Hpc.
    simpl. by rewrite list_lookup_insert_eq.
Qed.

Lemma valid_constants_main : valid_constants N_main BLOCK_SIZE_main.
Proof. unfold valid_constants. vm_compute. split_and!; discriminate. Qed.

Lemma blocks_main : NUMBER_OF_BLOCKS N_main BLOCK_SIZE_main = 13.
Proof. reflexivity. Qed.

Lemma cursor_fits_main (T : nat) :
  Z.of_nat T ≤ 1000000 → cursor_fits N_main BLOCK_SIZE_main T.
Proof.
  intros HT. unfold cursor_fits. rewrite blocks_main. unfold INT_MAX. lia.
Qed.

Lemma last_worker_at_loop :
  threadsArray (run N_main BLOCK_SIZE_main 14 schedule_last_worker (initial (R:=Qc) 14))
    !! 13%nat = Some (Worker AtLoop 13 0%Qc O).
Proof. lazy. reflexivity. Qed.

Lemma loop_body_up_to_M_witness :
  let s := run N_main BLOCK_SIZE_main 14 schedule_last_worker (initial (R:=Qc) 14) in
  let s1 := step N_main BLOCK_SIZE_main 14 (WorkerThread 13) s in
  let s2 := step N_main BLOCK_SIZE_main 14 (WorkerThread 13) s1 in
  log s1 = EvCompute 13 13 :: log s ∧ log s2 = EvSetEvent 13 :: log s1.
Proof.
  intros s s1 s2.
  pose proof (loop_body_up_to_M (R:=Qc) N_main BLOCK_SIZE_main 14
                schedule_last_worker 13 (Worker AtLoop 13 0%Qc O)
                valid_constants_main (cursor_fits_main 14 ltac:(simpl; lia))
                last_worker_at_loop)
    as (_ & _ & Hstep & _).
  destruct (Hstep eq_refl eq_refl) as [Hin _].
  destruct Hin as (_ & H2 & _ & _ & H5).
  { cbn [currentBlock]. rewrite blocks_main. lia. }
  split; [exact H2 | exact H5].
Defined.

(** C3, as the specification has it, fails: with 14 threads worker 13
    starts with [currentBlock = 13 = M], enters the body of the loop and
    signals its event; it does not go to the fold. *)
Lemma body_runs_at_M :
  let s := run N_main BLOCK_SIZE_main 14 schedule_last_worker (initial (R:=Qc) 14) in
  let s1 := step N_main BLOCK_SIZE_main 14 (WorkerThread 13) s in
  let s2 := step N_main BLOCK_SIZE_main 14 (WorkerThread 13) s1 in
  NUMBER_OF_BLOCKS N_main BLOCK_SIZE_main = 13
  ∧ threadsArray s !! 13%nat = Some (Worker AtLoop 13 0%Qc O)
  ∧ w_pc <$> threadsArray s1 !! 13%nat = Some AtSetEvent
  ∧ log s2 = EvSetEvent 13 :: EvCompute 13 13 :: log s
  ∧ ¬ body_only_below_blocks (R:=Qc) N_main BLOCK_SIZE_main 14.
Proof.
  intros s s1 s2. split_and!.
  - reflexivity.
  - exact last_worker_at_loop.
  - lazy. reflexivity.
  - lazy. reflexivity.
  - intros Hclaim.
    destruct (Hclaim schedule_last_worker 13%nat (Worker AtLoop 13 0%Qc O)
                last_worker_at_loop eq_refl eq_refl) as [Hpc _].
    + cbn [currentBlock]. rewrite blocks_main. lia.
    + lazy in Hpc. discriminate.
Qed.

(** C4, on the program: with 2 threads the loop that starts the run
    calls [ResumeThread] for the indices 0, 1 and 2, and the array of
    handles has no slot 2. *)
Theorem start_loop_reads_past_array :
  let s := run N_main BLOCK_SIZE_main 2 (replicate 4 Coordinator) (initial (R:=Qc) 2) in
  log s = [EvResume 2; EvResume 1; EvResume 0; EvStore 2]
  ∧ length (threadsArray s) = 2%nat
  ∧ threadsArray s !! 2%nat = None
  ∧ ¬ start_within_array (R:=Qc) N_main BLOCK_SIZE_main 2.
Proof.
  intros s.
  assert (Hlog : log s = [EvResume 2; EvResume 1; EvResume 0; EvStore 2])
    by (lazy; reflexivity).
  assert (Hnone : threadsArray s !! 2%nat = None) by (lazy; reflexivity).
  split_and!.
  - exact Hlog.
  - lazy. reflexivity.
  - exact Hnone.
  - intros Hclaim. destruct (Hclaim (replicate 4 Coordinator) 2%nat) as [w Hw].
    + fold s. rewrite Hlog. left.
    + fold s in Hw. rewrite Hnone in Hw. discriminate.
Qed.

(** C9. The integrand is evaluated only at samples of [[0, N)]: the
    summation of a block [k >= 0] whose products fit in an [int] visits
    only such samples, the partial sum is the sum of the integrand over
    exactly the samples visited, and under every schedule every block a
    worker sums is such a block. *)
Theorem samples_within_range {R : Type} `{Arith R}
    (N B : Z) (T : nat) (sched : list thread) :
  valid_constants N B → cursor_fits N B T →
  let s := run N B T sched (initial (R:=R) T) in
  (∀ k i, 0 ≤ k → (k + 1) * B ≤ INT_MAX → i ∈ block_indices N B k → 0 ≤ i < N)
  ∧ (∀ k (x : R),
       sum_block N B k x = foldl (λ a i, radd a (integrand N i)) x (block_indices N B k))
  ∧ (∀ id k i, (id, k) ∈ computed (log s) →
       0 ≤ k ≤ NUMBER_OF_BLOCKS N B ∧ (i ∈ block_indices N B k → 0 ≤ i < N)).
Proof.
  intros (HN & HB & Hmax) Hfits s.
  assert (Hs : reachable N B T s) by (by exists sched).
  split_and!.
  - intros k i Hk Hk'. by apply block_indices_in_range.
  - intros k x. apply sum_block_foldl.
  - intros id k i Hin.
    destruct (dispatch_inv_reachable N B T Hfits s Hs) as [_ _ Hcomp].
    destruct (Hcomp id k Hin) as [Hd HkM].
    assert (Hk0 : 0 ≤ k).
    { apply (list_elem_of_fmap_2 snd) in Hd.
      rewrite (dispatch_sequence N B T Hfits s Hs) in Hd.
      apply elem_of_seqZ in Hd. simpl in Hd. lia. }
    split; [lia |]. apply block_indices_in_range; [done | done | done | nia].
Qed.

Lemma samples_within_range_witness :
  99999999 ∈ block_indices N_main BLOCK_SIZE_main 12 ∧ 0 ≤ 99999999 < N_main.
Proof.
  pose proof (samples_within_range (R:=Qc) N_main BLOCK_SIZE_main 4 []
                valid_constants_main (cursor_fits_main 4 ltac:(simpl; lia))) as (Hfun & _).
  assert (Hin : 99999999 ∈ block_indices N_main BLOCK_SIZE_main 12).
  { apply elem_of_block_indices. vm_compute. split; [discriminate | reflexivity]. }
  split; [exact Hin |].
  apply (Hfun 12 99999999); [lia | vm_compute; discriminate | exact Hin].
Defined.

(** ** The fold *)

Section Fold.

Variables N BLOCK_SIZE : Z.
Context {R : Type} `{Arith R}.
Variable numberOfThreads : nat.

Local Abbreviation M := (NUMBER_OF_BLOCKS N BLOCK_SIZE).
Local Abbreviation T := numberOfThreads.
Local Abbreviation step' := (step N BLOCK_SIZE (R:=R) T).
Local Abbreviation reachable' := (reachable N BLOCK_SIZE (R:=R) T).
Local Abbreviation initial' := (initial (R:=R) T).

Lemma folds_cons id e l :
  folds id (e :: l) = ((if decide (e = EvFold id) then 1 else 0) + folds id l)%nat.
Proof. unfold folds. rewrite filter_cons. by case_decide. Qed.

Lemma events_of_cons id e l :
  events_of id (e :: l) =
  if decide (owner e = Some id) then e :: events_of id l else events_of id l.
Proof. unfold events_of. by rewrite filter_cons. Qed.

Lemma fold_inv_initial : fold_inv initial'.
Proof. intros id w [-> _]%create_threads_lookup. simpl. split; done. Qed.

(** An event that is no fold of worker [j] and, if [j] is terminated,
    no action of [j] at all, leaves the facts about [j] as they are. *)
Lemma fold_facts_cons j e l pc :
  e ≠ EvFold j → (pc = Terminated → owner e ≠ Some j) →
  ((pc = Terminated → folds j l = 1%nat ∧ head (events_of j l) = Some (EvFold j))
   ∧ (pc ≠ Terminated → folds j l = O)) →
  (pc = Terminated →
     folds j (e :: l) = 1%nat ∧ head (events_of j (e :: l)) = Some (EvFold j))
  ∧ (pc ≠ Terminated → folds j (e :: l) = O).
Proof.
  intros Hne Hown [Hterm Hrun]. rewrite folds_cons, events_of_cons.
  rewrite decide_False by done. split.
  - intros Hpc. rewrite decide_False by auto. by apply Hterm.
  - intros Hpc. by apply Hrun.
Qed.

Lemma fold_inv_coordinator s : fold_inv s → fold_inv (calculatePi_step N BLOCK_SIZE T s).
Proof.
  intros Hinv.
  assert (Hres : ∀ i nb p evs c l',
    (l' = log s ∨ ∃ e, l' = e :: log s ∧ owner e = None) →
    fold_inv (State nb p (ResumeThread i (threadsArray s)) evs c l')).
  { intros i nb p evs c l' Hl' j w' (w & Hw & Hpc & _)%ResumeThread_lookup. simpl.
    rewrite Hpc. destruct Hl' as [->|(e & -> & He)]; [by apply Hinv |].
    apply fold_facts_cons; [by destruct e | by rewrite He | by apply Hinv]. }
  assert (Hsame : ∀ nb p evs c l',
    (l' = log s ∨ ∃ e, l' = e :: log s ∧ owner e = None) →
    fold_inv (State nb p (threadsArray s) evs c l')).
  { intros nb p evs c l' Hl' j w Hw. simpl.
    destruct Hl' as [->|(e & -> & He)]; [by apply Hinv |].
    apply fold_facts_cons; [by destruct e | by rewrite He | by apply Hinv]. }
  unfold calculatePi_step.
  destruct (c_pc s) eqn:Hcpc; repeat case_match;
    first [ done | apply Hres; by eauto | apply Hsame; by eauto ].
Qed.

Lemma fold_inv_worker id s : fold_inv s → fold_inv (calculateIteration_step N BLOCK_SIZE id s).
Proof.
  intros Hinv. unfold calculateIteration_step.
  destruct (threadsArray s !! id) as [w|] eqn:Hw; [|done].
  destruct (suspendCount w) eqn:Hsc; [|done].
  assert (Hlocal : ∀ nb p pc' cb' x' c' evs l',
    w_pc w ≠ Terminated → pc' ≠ Terminated →
    (l' = log s ∨ ∃ e, l' = e :: log s ∧ owner e = Some id ∧ e ≠ EvFold id) →
    fold_inv (State nb p (<[id:=Worker pc' cb' x' c']> (threadsArray s)) evs (c_pc s) l')).
  { intros nb p pc' cb' x' c' evs l' Hpc Hpc' Hl' j w'. simpl.
    intros [(-> & <- & _)|[Hne Hj]]%list_lookup_insert_Some; simpl.
    - destruct (Hinv _ _ Hw) as [_ Hrun]. specialize (Hrun Hpc).
      split; [done |]. intros _.
      destruct Hl' as [->|(e & -> & He & Hnf)]; [done |].
      rewrite folds_cons. by rewrite decide_False.
    - destruct Hl' as [->|(e & -> & He & Hnf)]; [by apply Hinv |].
      apply fold_facts_cons; [| | by apply Hinv].
      + intros ->. simpl in He. congruence.
      + intros _. rewrite He. congruence. }
  destruct (w_pc w) eqn:Hpc; unfold fetch_add;
    try (repeat case_match; apply Hlocal; by eauto 6).
  - (* the fold *)
    intros j w'. simpl.
    intros [(-> & <- & _)|[Hne Hj]]%list_lookup_insert_Some; simpl.
    + destruct (Hinv _ _ Hw) as [_ Hrun]. rewrite Hpc in Hrun.
      rewrite folds_cons, events_of_cons. simpl.
      rewrite !decide_True by done. rewrite Hrun by done. done.
    + apply fold_facts_cons; [| | by apply Hinv].
      * intros [= ->]. done.
      * intros _. simpl. congruence.
  - done.
Qed.

Lemma fold_inv_reachable s : reachable' s → fold_inv s.
Proof.
  revert s. apply reachable_ind; [apply fold_inv_initial |].
  intros s [|id] _ Hinv; [by apply fold_inv_coordinator | by apply fold_inv_worker].
Qed.

End Fold.

Section Progress.

Variables N BLOCK_SIZE : Z.
Context {R : Type} `{Arith R}.
Variable numberOfThreads : nat.

Local Abbreviation M := (NUMBER_OF_BLOCKS N BLOCK_SIZE).
Local Abbreviation T := numberOfThreads.
Local Abbreviation step' := (step N BLOCK_SIZE (R:=R) T).
Local Abbreviation reachable' := (reachable N BLOCK_SIZE (R:=R) T).

Hypothesis Hfits : cursor_fits N BLOCK_SIZE T.

(** A worker that is neither suspended nor terminated takes a step, and
    the step brings it closer to its fold: the loop cannot run forever,
    because every claim returns a larger index than the one held. *)
Lemma worker_progress s id w :
  reachable' s →
  threadsArray s !! id = Some w → suspendCount w = O → w_pc w ≠ Terminated →
  ∃ w', threadsArray (step' (WorkerThread id) s) !! id = Some w'
        ∧ (remaining N BLOCK_SIZE w' < remaining N BLOCK_SIZE w)%nat.
Proof.
  intros Hs Hw Hsc Hpc.
  pose proof (cursor_inv_reachable N BLOCK_SIZE T Hfits s Hs)
    as [Hlen Hcur Hfresh Hcre Hws Hbd Hcl].
  assert (Hpost : c_pc s ≠ CSetCursor) by (intros Hc; by eapply Hcre).
  destruct (Hws _ _ Hw) as (Hcb & Hbody & Hexit).
  assert (Hlt : (id < length (threadsArray s))%nat) by (by eapply lookup_lt_Some).
  specialize (Hcur Hpost).
  simpl. unfold calculateIteration_step. rewrite Hw, Hsc.
  destruct (w_pc w) eqn:Hw_pc; try done.
  - unfold loop_guard. destruct (Z.leb_spec (currentBlock w) M); simpl;
      rewrite list_lookup_insert_eq by done; eexists; (split; [done |]);
      unfold remaining; rewrite Hw_pc; simpl; lia.
  - simpl. rewrite list_lookup_insert_eq by done. eexists. split; [done |].
    unfold remaining. rewrite Hw_pc. simpl. lia.
  - simpl. rewrite list_lookup_insert_eq by done. eexists. split; [done |].
    unfold remaining. rewrite Hw_pc. simpl. destruct (nextBlock s <=? M); lia.
  - simpl. rewrite list_lookup_insert_eq by done. eexists. split; [done |].
    unfold remaining. rewrite Hw_pc. simpl. lia.
  - unfold fetch_add. simpl. rewrite list_lookup_insert_eq by done.
    eexists. split; [done |].
    unfold remaining. rewrite Hw_pc. simpl. lia.
  - simpl. rewrite list_lookup_insert_eq by done. eexists. split; [done |].
    unfold remaining. rewrite Hw_pc. simpl. lia.
Qed.

End Progress.


Lemma idle_worker_terminated :
  threadsArray (run N_main BLOCK_SIZE_main 15 schedule_idle_worker (initial (R:=Qc) 15))
    !! 14%nat = Some (Worker Terminated 14 0%Qc O).
Proof. lazy. reflexivity. Qed.


(** ** The accumulator *)

Section Sum.

Variables N BLOCK_SIZE : Z.
Context {R : Type} `{Arith R}.
Context `{!Assoc (=) (radd (R:=R)), !Comm (=) (radd (R:=R)),
          !LeftId (=) (r0 (R:=R)) radd}.
Variable numberOfThreads : nat.

Local Abbreviation M := (NUMBER_OF_BLOCKS N BLOCK_SIZE).
Local Abbreviation T := numberOfThreads.
Local Abbreviation step' := (step N BLOCK_SIZE (R:=R) T).
Local Abbreviation reachable' := (reachable N BLOCK_SIZE (R:=R) T).
Local Abbreviation initial' := (initial (R:=R) T).
Local Abbreviation block_sum' := (block_sum N BLOCK_SIZE (R:=R)).
Local Abbreviation pending' := (pending N BLOCK_SIZE (R:=R)).
Local Abbreviation contribution' := (contribution N BLOCK_SIZE (R:=R)).
Local Abbreviation term := (λ (a : R) (i : Z), radd a (integrand N i)).

Lemma radd_0_r (x : R) : radd x r0 = x.
Proof. rewrite (comm radd). apply (left_id r0 radd). Qed.

Lemma radd_swap (a b c : R) : radd a (radd b c) = radd b (radd a c).
Proof. rewrite !(assoc radd). f_equal. apply (comm radd). Qed.

(** Summation started from [x] is [x] plus summation started from 0. *)
Lemma foldl_term_acc (l : list Z) (x : R) :
  foldl term x l = radd x (foldl term r0 l).
Proof.
  revert x. induction l as [|i l IH]; intros x; simpl.
  - by rewrite radd_0_r.
  - rewrite (IH (radd x _)), (IH (radd r0 _)).
    rewrite (left_id r0 radd). by rewrite (assoc radd).
Qed.

Lemma sum_block_acc k (x : R) :
  sum_block N BLOCK_SIZE k x = radd x (block_sum' k).
Proof. unfold block_sum. rewrite !sum_block_foldl. apply foldl_term_acc. Qed.

Lemma big_snoc (l : list R) (x : R) : big radd r0 (l ++ [x]) = radd (big radd r0 l) x.
Proof.
  unfold big. induction l as [|a l IH]; simpl.
  - by rewrite radd_0_r, (left_id r0 radd).
  - rewrite IH. by rewrite (assoc radd).
Qed.

Lemma big_zero {A} (f : A → R) (l : list A) :
  (∀ x, x ∈ l → f x = r0) → big radd r0 (f <$> l) = r0.
Proof.
  unfold big. induction l as [|a l IH]; intros Hf; [done |].
  csimpl. rewrite (Hf a) by left. rewrite (left_id r0 radd).
  apply IH. intros x Hx. apply Hf. by right.
Qed.

Lemma pending_step c : c ≤ M → pending' c = radd (block_sum' c) (pending' (c + 1)).
Proof.
  intros Hc. unfold pending. rewrite (seqZ_cons c) by lia.
  replace (Z.succ c) with (c + 1) by lia.
  replace (Z.pred (M + 1 - c)) with (M + 1 - (c + 1)) by lia. done.
Qed.

Lemma pending_past c : M < c → pending' c = r0.
Proof. intros Hc. unfold pending. rewrite seqZ_nil by lia. done. Qed.

(** The blocks summed one after the other are the samples they cover
    summed one after the other. *)
Lemma big_block_sums (ks : list Z) :
  big radd r0 (block_sum' <$> ks) =
  foldl term r0 (concat (block_indices N BLOCK_SIZE <$> ks)).
Proof.
  induction ks as [|k ks IH]; [done |].
  csimpl. rewrite foldl_app, foldl_term_acc.
  unfold big in *. simpl. rewrite IH.
  unfold block_sum. by rewrite sum_block_foldl.
Qed.

Lemma pending_all :
  valid_constants N BLOCK_SIZE → pending' 0 = sequential_sum N.
Proof.
  intros (HN & HB & Hmax). pose proof (blocks_pos N BLOCK_SIZE HN HB) as HM.
  unfold pending. rewrite big_block_sums.
  unfold sequential_sum. rewrite for_range_foldl.
  f_equal. rewrite !Z.sub_0_r.
  rewrite (seqZ_app 0 M 1) by lia. rewrite fmap_app, concat_app.
  rewrite Z.add_0_l. change (seqZ M 1) with [M]. csimpl.
  destruct (block_indices_past N BLOCK_SIZE M HN HB ltac:(lia) Hmax) as [_ ->].
  rewrite !app_nil_r.
  pose proof (blocks_concat N BLOCK_SIZE (Z.to_nat M) HN HB ltac:(nia)) as Hcat.
  rewrite Z2Nat.id in Hcat by lia. rewrite Hcat by lia.
  pose proof (blocks_cover N BLOCK_SIZE HN HB). f_equal. lia.
Qed.

Lemma contribution_resume i (ts : list (worker R)) :
  contribution' <$> ResumeThread i ts = contribution' <$> ts.
Proof. by apply ResumeThread_fmap. Qed.

Lemma initial_sum (n : nat) :
  radd (big radd r0 (contribution' <$> create_threads n)) (pending' (Z.of_nat n))
  = pending' 0.
Proof.
  induction n as [|n IH].
  - simpl. unfold big. simpl. apply (left_id r0 radd).
  - unfold create_threads in *. rewrite seq_S, !fmap_app. csimpl.
    rewrite big_snoc. rewrite <- IH. unfold contribution at 2. simpl.
    rewrite Nat2Z.inj_succ, <- Z.add_1_r.
    destruct (Z.leb_spec (Z.of_nat n) M).
    + rewrite (pending_step (Z.of_nat n)) by done.
      rewrite (left_id r0 radd). by rewrite !(assoc radd).
    + rewrite !pending_past by lia. by rewrite !radd_0_r.
Qed.

Lemma all_terminated_fmap (ts : list (worker R)) :
  all_terminated ts = forallb id (is_terminated <$> ts).
Proof.
  unfold all_terminated. induction ts as [|w ts IH]; [done |].
  csimpl. by rewrite IH.
Qed.

Lemma all_terminated_resume i (ts : list (worker R)) :
  all_terminated (ResumeThread i ts) = all_terminated ts.
Proof. rewrite !all_terminated_fmap. f_equal. by apply ResumeThread_fmap. Qed.

Lemma sum_inv_initial : sum_inv N BLOCK_SIZE T initial'.
Proof.
  split; simpl; try done.
  - intros _. rewrite (left_id r0 radd). unfold cursor_of. simpl.
    rewrite Z.add_0_r. apply initial_sum.
  - intros [|]; done.
Qed.

Hypothesis Hfits : cursor_fits N BLOCK_SIZE T.

Lemma sum_inv_coordinator s :
  cursor_inv N BLOCK_SIZE T s →
  sum_inv N BLOCK_SIZE T s → sum_inv N BLOCK_SIZE T (calculatePi_step N BLOCK_SIZE T s).
Proof.
  intros [_ Hcur _ _ _ _ _] Hinv. pose proof Hinv as [Hsum Hfin Hjoin Hdone].
  assert (Hkeep : ∀ nb ts' evs c' l',
    contribution' <$> ts' = contribution' <$> threadsArray s →
    all_terminated ts' = all_terminated (threadsArray s) →
    cursor_of T l' = cursor_of T (log s) →
    c_pc s ≠ CDone → c' ≠ CDone →
    (in_final c' = true → M < cursor_of T (log s)) →
    (c' = CDivide → all_terminated (threadsArray s) = true) →
    sum_inv N BLOCK_SIZE T (State nb (pi s) ts' evs c' l')).
  { intros nb ts' evs c' l' Hc Ha Hl Hs Hc' Hf Hj. split; simpl.
    - intros _. rewrite Hc, Hl. by apply Hsum.
    - rewrite Hl. exact Hf.
    - intros [Hd|Hd]; [| done]. rewrite Ha. by apply Hj.
    - done. }
  unfold calculatePi_step.
  destruct (c_pc s) eqn:Hcpc; repeat case_match; try exact Hinv;
    try (apply Hkeep;
         rewrite ?contribution_resume, ?all_terminated_resume; simpl;
         first [ done | by apply Hfin | by intros ]).
  - (* the dispatch loop is left *)
    apply Hkeep; try done. intros _. rewrite <- Hcur by done.
    match goal with Hle : (_ <=? _) = false |- _ => by apply Z.leb_gt in Hle end.
  - (* the division *)
    specialize (Hsum ltac:(done)). specialize (Hfin eq_refl).
    specialize (Hjoin (or_introl eq_refl)).
    rewrite pending_past in Hsum by done.
    rewrite big_zero in Hsum.
    + rewrite !radd_0_r in Hsum.
      split; simpl; [done | by intros _ | by intros _ | intros _; by rewrite Hsum].
    + intros w [j Hw]%list_elem_of_lookup.
      rewrite all_terminated_lookup in Hjoin. specialize (Hjoin _ _ Hw).
      unfold contribution. by rewrite Hjoin.
Qed.

Lemma sum_inv_worker id s :
  cursor_inv N BLOCK_SIZE T s →
  sum_inv N BLOCK_SIZE T s → sum_inv N BLOCK_SIZE T (calculateIteration_step N BLOCK_SIZE id s).
Proof.
  intros [Hlen Hcur Hfresh Hcre Hws Hbd Hcl] Hinv.
  pose proof Hinv as [Hsum Hfin Hjoin Hdone].
  unfold calculateIteration_step.
  destruct (threadsArray s !! id) as [w|] eqn:Hw; [|done].
  destruct (suspendCount w) eqn:Hsc; [|done].
  destruct (decide (w_pc w = Terminated)) as [Hterm|Hterm]; [by rewrite Hterm |].
  assert (Hpost : c_pc s ≠ CSetCursor) by (intros Hc; by eapply Hcre).
  destruct (Hws _ _ Hw) as (Hcb & Hbody & Hexit).
  (* a worker still runs, so the coordinator has not passed its join *)
  assert (Hrun : ¬ (c_pc s = CDivide ∨ c_pc s = CDone)).
  { intros Hc. specialize (Hjoin Hc). rewrite all_terminated_lookup in Hjoin.
    by specialize (Hjoin _ _ Hw). }
  assert (Hnd : c_pc s ≠ CDone) by tauto.
  specialize (Hsum Hnd). specialize (Hcur Hpost).
  destruct (big_insert radd r0 (contribution' <$> threadsArray s) id
              (contribution' w)) as (rest & Hrest & Hins).
  { by rewrite list_lookup_fmap, Hw. }
  rewrite Hrest in Hsum.
  assert (Hlocal : ∀ w' evs l',
    contribution' w' = contribution' w →
    cursor_of T l' = cursor_of T (log s) →
    sum_inv N BLOCK_SIZE T
      (State (nextBlock s) (pi s) (<[id:=w']> (threadsArray s)) evs (c_pc s) l')).
  { intros w' evs l' Hc Hl. split; simpl.
    - intros _. rewrite list_fmap_insert, Hins, Hc, Hl. exact Hsum.
    - rewrite Hl. exact Hfin.
    - tauto.
    - tauto. }
  destruct (w_pc w) eqn:Hpc; try done.
  - (* the test of the loop *)
    unfold loop_guard. destruct (Z.leb_spec (currentBlock w) M) as [Hle|Hgt].
    + apply Hlocal; [| done]. unfold contribution. rewrite Hpc. simpl.
      rewrite sum_block_acc.
      destruct (Z.leb_spec (currentBlock w) M); [done | lia].
    + apply Hlocal; [| done]. unfold contribution. rewrite Hpc. simpl.
      destruct (Z.leb_spec (currentBlock w) M); [lia | done].
  - apply Hlocal; [| done]. unfold contribution. by rewrite Hpc.
  - apply Hlocal; [| done]. unfold contribution. rewrite Hpc.
    by destruct (nextBlock s <=? M).
  - apply Hlocal; [| done]. unfold contribution. by rewrite Hpc.
  - (* the claim *)
    unfold fetch_add. unfold contribution in Hsum at 1. rewrite Hpc in Hsum.
    assert (Hcur' : cursor_of T (EvClaim id (nextBlock s) :: log s) = nextBlock s + 1).
    { rewrite Hcur. unfold cursor_of. simpl. lia. }
    split; simpl.
    + intros _. rewrite list_fmap_insert, Hins, Hcur'.
      unfold contribution at 1. simpl. rewrite <- Hcur in Hsum.
      destruct (Z.leb_spec (nextBlock s) M) as [Hle|Hgt].
      * rewrite (pending_step (nextBlock s)) in Hsum by done.
        rewrite <- Hsum. f_equal.
        rewrite <- !(assoc radd). f_equal. apply radd_swap.
      * rewrite pending_past in Hsum by done.
        rewrite pending_past by lia. exact Hsum.
    + intros Hf. specialize (Hfin Hf). rewrite Hcur'. rewrite <- Hcur in Hfin. lia.
    + tauto.
    + tauto.
  - (* the fold *)
    unfold contribution in Hsum at 1. rewrite Hpc in Hsum.
    split; simpl.
    + intros _. rewrite list_fmap_insert, Hins.
      unfold contribution at 1. simpl. rewrite (left_id r0 radd).
      rewrite <- Hsum. by rewrite <- !(assoc radd).
    + exact Hfin.
    + tauto.
    + tauto.
Qed.

Lemma sum_inv_reachable s : reachable' s → sum_inv N BLOCK_SIZE T s.
Proof.
  revert s.
  apply (reachable_ind N BLOCK_SIZE T (sum_inv N BLOCK_SIZE T)); [apply sum_inv_initial |].
  intros s [|id] Hs Hinv.
  - apply sum_inv_coordinator; [exact (cursor_inv_reachable N BLOCK_SIZE T Hfits s Hs) | done].
  - apply sum_inv_worker; [exact (cursor_inv_reachable N BLOCK_SIZE T Hfits s Hs) | done].
Qed.

End Sum.

#[export] Instance Qc_radd_assoc : Assoc (=) (radd (R:=Qc)) := Qcplus_assoc.
#[export] Instance Qc_radd_comm : Comm (=) (radd (R:=Qc)) := Qcplus_comm.
#[export] Instance Qc_radd_left_id : LeftId (=) (r0 (R:=Qc)) radd := Qcplus_0_l.



Lemma dispatch_exactly_once_witness :
  let s := run 10 3 2 (round_robin 2 40) (initial (R:=Qc) 2) in
  all_terminated (threadsArray s) = true
  ∧ (∃ id, dispatch 2 (log s) !! 3%nat = Some (id, 3))
  ∧ occurrences 3 (computed (log s)) = 1%nat.
Proof.
  intros s.
  assert (Hfits : cursor_fits 10 3 2).
  { unfold cursor_fits. vm_compute. reflexivity. }
  assert (Hterm : all_terminated (threadsArray s) = true) by (vm_compute; reflexivity).
  pose proof (dispatch_exactly_once (R:=Qc) 10 3 2 (round_robin 2 40) Hfits)
    as (_ & _ & _ & _ & _ & _ & _ & Hall).
  destruct (Hall ltac:(lia) Hterm 3) as [Hd Hc].
  { vm_compute. split; [discriminate | reflexivity]. }
  split_and!; [exact Hterm | exact Hd | exact Hc].
Defined.


(** * Further properties *)

(** ** The start of the run *)

Lemma fmap_seq_insert {A} (f g : nat → A) (n i : nat) :
  (∀ j, j ≠ i → g j = f j) → <[i := g i]> (f <$> seq 0 n) = g <$> seq 0 n.
Proof.
  intros Hfg. apply list_eq. intros j.
  destruct (decide (j = i)) as [->|Hne].
  - destruct (decide (i < n)%nat) as [Hlt|Hge].
    + rewrite list_lookup_insert_eq by (by rewrite length_fmap, length_seq).
      by rewrite list_lookup_fmap, lookup_seq_lt.
    + rewrite list_insert_ge by (rewrite length_fmap, length_seq; lia).
      rewrite !list_lookup_fmap, !lookup_seq_ge by lia. done.
  - rewrite list_lookup_insert_ne by done.
    rewrite !list_lookup_fmap. destruct (seq 0 n !! j) as [j'|] eqn:Hj; [|done].
    apply lookup_seq in Hj as [-> _]. simpl. by rewrite Hfg.
Qed.

Lemma fmap_seq_lookup {A} (f : nat → A) (n i : nat) :
  (i < n)%nat → (f <$> seq 0 n) !! i = Some (f i).
Proof. intros Hi. by rewrite list_lookup_fmap, lookup_seq_lt. Qed.

Section Start.

Variables N BLOCK_SIZE : Z.
Context {R : Type} `{Arith R}.
Variable numberOfThreads : nat.

Local Abbreviation M := (NUMBER_OF_BLOCKS N BLOCK_SIZE).
Local Abbreviation T := numberOfThreads.
Local Abbreviation step' := (step N BLOCK_SIZE (R:=R) T).
Local Abbreviation run' := (run N BLOCK_SIZE (R:=R) T).
Local Abbreviation initial' := (initial (R:=R) T).

Lemma started_threads_create : started_threads (R:=R) T 0 = create_threads T.
Proof. done. Qed.

Lemma started_threads_length i : length (started_threads (R:=R) T i) = T.
Proof. unfold started_threads. by rewrite length_fmap, length_seq. Qed.

(** Resuming thread [i], the next one in the start loop. *)
Lemma ResumeThread_started i :
  (i < T)%nat →
  ResumeThread i (started_threads (R:=R) T i) = started_threads T (S i).
Proof.
  intros Hi. unfold ResumeThread, started_threads.
  rewrite fmap_seq_lookup by done. simpl.
  rewrite Nat.ltb_irrefl. simpl.
  set (f := λ j : nat, Worker AtLoop (Z.of_nat j) (r0 (R:=R))
                         (if (j <? i)%nat then O else 1%nat)).
  set (g := λ j : nat, Worker AtLoop (Z.of_nat j) (r0 (R:=R))
                         (if (j <? S i)%nat then O else 1%nat)).
  replace (Worker AtLoop (Z.of_nat i) r0 O) with (g i)
    by (unfold g; by rewrite (proj2 (Nat.ltb_lt i (S i))) by lia).
  apply fmap_seq_insert. intros j Hj. unfold f, g. f_equal.
  destruct (Nat.ltb_spec j i), (Nat.ltb_spec j (S i)); (done || lia).
Qed.

(** The slot past the end of the array: nothing to resume. *)
Lemma ResumeThread_past i (ts : list (worker R)) :
  (length ts ≤ i)%nat → ResumeThread i ts = ts.
Proof. intros Hi. unfold ResumeThread. by rewrite lookup_ge_None_2. Qed.

Lemma start_loop_steps (i : nat) (l : list event) :
  (i ≤ T)%nat →
  run' (replicate i Coordinator)
    (State (Z.of_nat T) r0 (started_threads T 0) (create_events T) (CStart 0) l)
  = State (Z.of_nat T) r0 (started_threads T i) (create_events T) (CStart i)
      ((EvResume <$> reverse (seq 0 i)) ++ l).
Proof.
  induction i as [|i IH]; intros Hi; [done |].
  rewrite replicate_S_end, run_snoc, IH by lia.
  rewrite seq_S, reverse_app.
  unfold step, calculatePi_step. cbn [c_pc nextBlock pi threadsArray eventsArray log].
  rewrite (proj2 (Nat.leb_le i T)) by lia.
  rewrite ResumeThread_started by lia. done.
Qed.

Lemma start_schedule_run :
  run' (start_schedule T) initial'
  = State (Z.of_nat T) r0 (started_threads T T) (create_events T) CLoop
      ((EvResume <$> reverse (seq 0 (S T))) ++ [EvStore (Z.of_nat T)]).
Proof.
  unfold start_schedule.
  replace (T + 3)%nat with (1 + (T + 2))%nat by lia.
  rewrite replicate_add, run_app. simpl replicate.
  assert (Hstore : run' [Coordinator] initial'
            = State (Z.of_nat T) r0 (started_threads T 0) (create_events T) (CStart 0)
                [EvStore (Z.of_nat T)]) by done.
  rewrite Hstore.
  replace (T + 2)%nat with (T + (1 + 1))%nat by lia.
  rewrite !replicate_add, !run_app, start_loop_steps by lia.
  rewrite seq_S, reverse_app.
  simpl replicate. unfold run. cbn [foldl]. unfold step, calculatePi_step.
  cbn [c_pc nextBlock pi threadsArray eventsArray log].
  rewrite Nat.leb_refl.
  cbn [c_pc nextBlock pi threadsArray eventsArray log].
  rewrite (ResumeThread_past T (started_threads T T))
    by (by rewrite started_threads_length).
  rewrite (proj2 (Nat.leb_gt (S T) T)) by lia. done.
Qed.

End Start.


(** ** A wake-up that is lost *)

Lemma first_signaled_Some (evs : list bool) (j : nat) :
  first_signaled evs = Some j →
  evs !! j = Some true ∧ ∀ i, (i < j)%nat → evs !! i = Some false.
Proof.
  revert j. induction evs as [|b evs IH]; intros j; [done |].
  simpl. destruct b.
  - intros [= <-]. split; [done | lia].
  - destruct (first_signaled evs) as [j'|]; [|done].
    intros [= <-]. destruct (IH j' eq_refl) as [Hj Hlt]. split; [done |].
    intros [|i] Hi; [done |]. simpl. apply Hlt. lia.
Qed.

Lemma first_signaled_None (evs : list bool) :
  first_signaled evs = None ↔ ∀ j, evs !! j ≠ Some true.
Proof.
  induction evs as [|b evs IH]; simpl.
  - split; [intros _ j | done]. by rewrite lookup_nil.
  - destruct b.
    + split; [done |]. intros Hall. by specialize (Hall O).
    + destruct (first_signaled evs) as [j'|] eqn:Hf.
      * split; [done |]. intros Hall. exfalso.
        apply first_signaled_Some in Hf as [Hj _]. by apply (Hall (S j')).
      * split; [| done]. intros _ [|j]; [done |]. simpl. by apply IH.
Qed.

Lemma first_signaled_single (n i : nat) :
  (i < n)%nat → first_signaled (<[i:=true]> (replicate n false)) = Some i.
Proof.
  revert i. induction n as [|n IH]; intros i Hi; [lia |].
  destruct i as [|i]; [done |]. simpl. by rewrite IH by lia.
Qed.

Section Deadlock.

Variables N BLOCK_SIZE : Z.
Context {R : Type} `{Arith R}.
Variable numberOfThreads : nat.

Local Abbreviation M := (NUMBER_OF_BLOCKS N BLOCK_SIZE).
Local Abbreviation T := numberOfThreads.
Local Abbreviation step' := (step N BLOCK_SIZE (R:=R) T).
Local Abbreviation run' := (run N BLOCK_SIZE (R:=R) T).
Local Abbreviation initial' := (initial (R:=R) T).
Local Abbreviation lost := (lost_threads (R:=R) N BLOCK_SIZE T).

(** A state in which the coordinator waits for something that no thread
    able to run will bring about stays as it is under every schedule. *)
Lemma blocked_forever (s : state R) (sched : list thread) :
  (c_pc s = CWait ∧ first_signaled (eventsArray s) = None
   ∨ c_pc s = CJoin ∧ all_terminated (threadsArray s) = false
   ∨ c_pc s = CDone) →
  (∀ id w, threadsArray s !! id = Some w →
     suspendCount w ≠ O ∨ w_pc w = Terminated) →
  run' sched s = s.
Proof.
  intros Hc Hws. induction sched as [|t sched IH] using rev_ind; [done |].
  rewrite run_snoc, IH. destruct t as [|id]; simpl.
  - unfold calculatePi_step.
    destruct Hc as [[-> ->]|[[-> ->]| ->]]; done.
  - unfold calculateIteration_step.
    destruct (threadsArray s !! id) as [w|] eqn:Hw; [|done].
    destruct (Hws _ _ Hw) as [Hsc| ->].
    + by destruct (suspendCount w).
    + by destruct (suspendCount w).
Qed.

Lemma lost_threads_length i : length (lost i) = T.
Proof. unfold lost_threads. by rewrite length_fmap, length_seq. Qed.

Lemma lost_threads_start : lost 0 = started_threads T T.
Proof.
  unfold lost_threads, started_threads. apply list_fmap_ext.
  intros j x [-> Hj]%lookup_seq. simpl. by rewrite (proj2 (Nat.ltb_lt j T)) by lia.
Qed.

Hypothesis HTM : Z.of_nat T ≤ M.

Lemma lost_wakeup_phase_run (i : nat) (p : R) (l : list event) :
  (i < T)%nat →
  run' (lost_wakeup_phase i)
    (State (Z.of_nat T) p (lost i) (replicate T false) CLoop l)
  = State (Z.of_nat T) p (lost (S i)) (replicate T false) CLoop
      (EvSuspend i :: EvResume i :: EvSetEvent i :: EvCompute i (Z.of_nat i) :: l).
Proof.
  intros Hi.
  pose proof (lost_threads_length i) as Hlen.
  assert (Hlk : lost i !! i = Some (Worker AtLoop (Z.of_nat i) r0 O)).
  { unfold lost_threads. rewrite fmap_seq_lookup by done. by rewrite Nat.ltb_irrefl. }
  assert (Hguard : loop_guard N BLOCK_SIZE (Z.of_nat i) = true).
  { unfold loop_guard. apply Z.leb_le. lia. }
  assert (Hcur : (Z.of_nat T <=? M) = true) by (by apply Z.leb_le).
  assert (Hins : ∀ w w' : worker R, <[i:=w]> (<[i:=w']> (lost i)) !! i = Some w).
  { intros w w'. rewrite list_insert_insert_eq. apply list_lookup_insert_eq. lia. }
  unfold lost_wakeup_phase, run. cbn [foldl]. unfold step at 8.
  (* the summation and the signal *)
  unfold calculateIteration_step at 1. cbn [threadsArray]. rewrite Hlk.
  cbn [suspendCount w_pc currentBlock threadPi nextBlock pi eventsArray c_pc log].
  rewrite Hguard.
  unfold step at 7. unfold calculateIteration_step at 1. cbn [threadsArray].
  rewrite list_lookup_insert_eq by lia.
  cbn [suspendCount w_pc currentBlock threadPi nextBlock pi eventsArray c_pc log].
  rewrite list_insert_insert_eq.
  (* the coordinator wakes up, resets and resumes *)
  unfold step at 6. unfold calculatePi_step at 1.
  cbn [nextBlock pi threadsArray eventsArray c_pc log]. rewrite Hcur.
  unfold step at 5. unfold calculatePi_step at 1.
  cbn [nextBlock pi threadsArray eventsArray c_pc log].
  rewrite first_signaled_single by done.
  unfold step at 4. unfold calculatePi_step at 1.
  cbn [nextBlock pi threadsArray eventsArray c_pc log].
  rewrite list_insert_insert_eq, insert_replicate.
  unfold step at 3. unfold calculatePi_step at 1.
  cbn [nextBlock pi threadsArray eventsArray c_pc log].
  unfold ResumeThread. rewrite list_lookup_insert_eq by lia.
  cbn [suspendCount w_pc currentBlock threadPi Nat.pred].
  rewrite list_insert_insert_eq.
  (* the worker suspends itself *)
  unfold step at 2. unfold calculateIteration_step at 1. cbn [threadsArray].
  rewrite list_lookup_insert_eq by lia.
  cbn [suspendCount w_pc currentBlock threadPi nextBlock pi eventsArray c_pc log].
  rewrite Hcur, list_insert_insert_eq.
  unfold step at 1. unfold calculateIteration_step at 1. cbn [threadsArray].
  rewrite list_lookup_insert_eq by lia.
  cbn [suspendCount w_pc currentBlock threadPi nextBlock pi eventsArray c_pc log].
  rewrite list_insert_insert_eq.
  f_equal. unfold lost_threads.
  set (f := λ j : nat,
    if (j <? i)%nat
    then Worker AtClaim (Z.of_nat j) (sum_block N BLOCK_SIZE (Z.of_nat j) (r0 (R:=R))) 1%nat
    else Worker AtLoop (Z.of_nat j) r0 O).
  set (g := λ j : nat,
    if (j <? S i)%nat
    then Worker AtClaim (Z.of_nat j) (sum_block N BLOCK_SIZE (Z.of_nat j) (r0 (R:=R))) 1%nat
    else Worker AtLoop (Z.of_nat j) r0 O).
  replace (Worker AtClaim (Z.of_nat i) (sum_block N BLOCK_SIZE (Z.of_nat i) r0) 1%nat)
    with (g i) by (unfold g; by rewrite (proj2 (Nat.ltb_lt i (S i))) by lia).
  apply fmap_seq_insert. intros j Hj. unfold f, g.
  destruct (Nat.ltb_spec j i), (Nat.ltb_spec j (S i)); (done || lia).
Qed.

Lemma lost_wakeup_phases_run (i : nat) (p : R) (l : list event) :
  (i ≤ T)%nat →
  run' (concat (lost_wakeup_phase <$> seq 0 i))
    (State (Z.of_nat T) p (lost 0) (replicate T false) CLoop l)
  = State (Z.of_nat T) p (lost i) (replicate T false) CLoop (lost_wakeup_log i ++ l).
Proof.
  induction i as [|i IH]; intros Hi; [done |].
  rewrite seq_S, fmap_app, concat_app, run_app, IH by lia.
  change (concat (lost_wakeup_phase <$> [(0 + i)%nat])) with (lost_wakeup_phase i ++ []).
  rewrite app_nil_r, lost_wakeup_phase_run by lia.
  unfold lost_wakeup_log. rewrite seq_S, reverse_app. done.
Qed.

Lemma lost_wakeup_run :
  run' (lost_wakeup_schedule T) initial'
  = State (Z.of_nat T) r0 (lost T) (replicate T false) CWait
      (lost_wakeup_log T
       ++ (EvResume <$> reverse (seq 0 (S T))) ++ [EvStore (Z.of_nat T)]).
Proof.
  unfold lost_wakeup_schedule. rewrite !run_app, start_schedule_run.
  rewrite <- lost_threads_start. unfold create_events.
  rewrite lost_wakeup_phases_run by lia.
  unfold run. cbn [foldl]. unfold step, calculatePi_step.
  cbn [nextBlock pi threadsArray eventsArray c_pc log].
  by rewrite (proj2 (Z.leb_le (Z.of_nat T) M)).
Qed.

Lemma lost_wakeup_log_claimed i : claimed (lost_wakeup_log i) = [].
Proof.
  unfold lost_wakeup_log. induction (reverse (seq 0 i)) as [|j js IH]; [done |].
  done.
Qed.

Lemma claimed_app l1 l2 : claimed (l1 ++ l2) = claimed l1 ++ claimed l2.
Proof.
  induction l1 as [|e l1 IH]; [done |]. destruct e; simpl; by rewrite ?IH.
Qed.

Lemma computed_app l1 l2 : computed (l1 ++ l2) = computed l1 ++ computed l2.
Proof.
  induction l1 as [|e l1 IH]; [done |]. destruct e; simpl; by rewrite ?IH.
Qed.

Lemma claimed_resumes (js : list nat) : claimed (EvResume <$> js) = [].
Proof. induction js as [|j js IH]; done. Qed.

Lemma computed_resumes (js : list nat) : computed (EvResume <$> js) = [].
Proof. induction js as [|j js IH]; done. Qed.

Lemma lost_wakeup_log_computed i :
  computed (lost_wakeup_log i) = (λ j, (j, Z.of_nat j)) <$> reverse (seq 0 i).
Proof.
  unfold lost_wakeup_log. induction (reverse (seq 0 i)) as [|j js IH]; [done |].
  csimpl. by rewrite IH.
Qed.

End Deadlock.

(** X2. For every number of threads [T] from 1 to the number of blocks
    there is a schedule under which the run never ends. Each worker in
    turn sums its first block and signals; the coordinator resets the event
    and calls [ResumeThread] while the worker still runs, so the call has no
    effect; then the worker suspends itself. In the end every worker is
    suspended before its first claim, no event is signaled, the coordinator
    waits, only the blocks [0 .. T-1] have been summed, and no schedule
    changes the state any more. *)
Theorem lost_wakeup_deadlock {R : Type} `{Arith R} (N B : Z) (T : nat) :
  (1 ≤ T)%nat → Z.of_nat T ≤ NUMBER_OF_BLOCKS N B →
  let s := run N B T (lost_wakeup_schedule T) (initial (R:=R) T) in
  c_pc s = CWait
  ∧ nextBlock s = Z.of_nat T
  ∧ first_signaled (eventsArray s) = None
  ∧ (∀ i, (i < T)%nat →
       threadsArray s !! i =
         Some (Worker AtClaim (Z.of_nat i) (sum_block N B (Z.of_nat i) r0) 1%nat))
  ∧ claimed (log s) = []
  ∧ computed (log s) = (λ j, (j, Z.of_nat j)) <$> reverse (seq 0 T)
  ∧ ∀ sched, run N B T sched s = s.
Proof.
  intros HT HTM s.
  assert (Hs : s = State (Z.of_nat T) r0 (lost_threads N B T T) (replicate T false) CWait
                 (lost_wakeup_log T
                  ++ (EvResume <$> reverse (seq 0 (S T))) ++ [EvStore (Z.of_nat T)])).
  { by apply lost_wakeup_run. }
  assert (Hnone : first_signaled (replicate T false) = None).
  { apply first_signaled_None. intros j Hj. by apply lookup_replicate in Hj as [? _]. }
  assert (Hlk : ∀ i, (i < T)%nat →
    lost_threads N B T T !! i =
      Some (Worker AtClaim (Z.of_nat i) (sum_block N B (Z.of_nat i) r0) 1%nat)).
  { intros i Hi. unfold lost_threads. rewrite fmap_seq_lookup by done.
    by rewrite (proj2 (Nat.ltb_lt i T)) by done. }
  rewrite Hs. cbn [c_pc nextBlock log threadsArray eventsArray]. split_and!; try done.
  - rewrite !claimed_app, lost_wakeup_log_claimed, claimed_resumes. done.
  - rewrite !computed_app, lost_wakeup_log_computed, computed_resumes.
    by rewrite app_nil_r.
  - intros sched. apply blocked_forever; cbn [c_pc threadsArray eventsArray].
    + left. done.
    + intros id w Hw. left.
      assert (Hid : (id < T)%nat).
      { apply lookup_lt_Some in Hw. by rewrite lost_threads_length in Hw. }
      rewrite Hlk in Hw by done. by injection Hw as <-.
Qed.

Lemma lost_wakeup_deadlock_witness :
  let s := run N_main BLOCK_SIZE_main 13 (lost_wakeup_schedule 13) (initial (R:=Qc) 13) in
  c_pc s = CWait ∧ claimed (log s) = []
  ∧ run N_main BLOCK_SIZE_main 13 (round_robin 13 1000) s = s.
Proof.
  pose proof (lost_wakeup_deadlock (R:=Qc) N_main BLOCK_SIZE_main 13
                ltac:(lia) ltac:(rewrite blocks_main; simpl; lia))
    as (Hc & _ & _ & _ & Hcl & _ & Hstuck).
  intros s. split_and!; [exact Hc | exact Hcl | exact (Hstuck _)].
Defined.

(** ** Suspend counts *)

Lemma ResumeThread_lookup_count {R} i (ts : list (worker R)) j w' :
  ResumeThread i ts !! j = Some w' →
  ∃ w, ts !! j = Some w ∧ w_pc w' = w_pc w ∧ currentBlock w' = currentBlock w
       ∧ threadPi w' = threadPi w
       ∧ suspendCount w' =
           if decide (i = j) then Nat.pred (suspendCount w) else suspendCount w.
Proof.
  unfold ResumeThread. destruct (ts !! i) as [w|] eqn:Hi.
  - intros [(-> & <- & _)|[Hne Hj]]%list_lookup_insert_Some.
    + exists w. simpl. by rewrite decide_True.
    + exists w'. by rewrite decide_False.
  - intros Hj. exists w'. split_and!; try done.
    case_decide; [congruence | done].
Qed.

Section Suspend.

Variables N BLOCK_SIZE : Z.
Context {R : Type} `{Arith R}.
Variable numberOfThreads : nat.

Local Abbreviation M := (NUMBER_OF_BLOCKS N BLOCK_SIZE).
Local Abbreviation T := numberOfThreads.
Local Abbreviation step' := (step N BLOCK_SIZE (R:=R) T).
Local Abbreviation reachable' := (reachable N BLOCK_SIZE (R:=R) T).
Local Abbreviation initial' := (initial (R:=R) T).

Lemma suspend_inv_initial : suspend_inv T initial'.
Proof.
  split; [apply create_threads_length |].
  intros id w [-> _]%create_threads_lookup. simpl. split; [lia |]. auto.
Qed.

Lemma suspend_inv_coordinator s :
  suspend_inv T s → suspend_inv T (calculatePi_step N BLOCK_SIZE T s).
Proof.
  intros Hinv. pose proof Hinv as [Hlen Hws].
  (* a call of ResumeThread that keeps the started workers started *)
  assert (Hres : ∀ i nb p evs c l',
    (∀ id, (id < T)%nat → id ≠ i →
       start_passed id (c_pc s) = false → start_passed id c = false) →
    suspend_inv T (State nb p (ResumeThread i (threadsArray s)) evs c l')).
  { intros i nb p evs c l' Hc. split; simpl; [by rewrite ResumeThread_length |].
    intros id w' (w & Hw & Hpc & Hcb & _ & Hsc)%ResumeThread_lookup_count.
    destruct (Hws _ _ Hw) as [Hle Hone]. rewrite Hpc, Hcb, Hsc.
    case_decide as Hi; [subst; split; lia |].
    split; [done |]. intros H1. destruct (Hone H1) as [?|(? & ? & Hsp)]; [by left |].
    right. split_and!; try done. apply Hc; [| done | done].
    apply lookup_lt_Some in Hw. lia. }
  assert (Hsame : ∀ nb p evs c l',
    (∀ id, (id < T)%nat →
       start_passed id (c_pc s) = false → start_passed id c = false) →
    suspend_inv T (State nb p (threadsArray s) evs c l')).
  { intros nb p evs c l' Hc. split; simpl; [done |].
    intros id w Hw. destruct (Hws _ _ Hw) as [Hle Hone]. split; [done |].
    intros H1. destruct (Hone H1) as [?|(? & ? & Hsp)]; [by left |].
    right. split_and!; try done. apply Hc; [| done].
    apply lookup_lt_Some in Hw. lia. }
  unfold calculatePi_step.
  destruct (c_pc s) eqn:Hcpc; repeat case_match; try exact Hinv;
    first [ apply Hres | apply Hsame ]; simpl; try done.
  - (* the call for index i of the start loop *)
    intros id Hid Hne Hlt. apply Nat.ltb_ge in Hlt. apply Nat.ltb_ge. lia.
  - (* the start loop ends *)
    intros id Hid Hlt. apply Nat.ltb_ge in Hlt.
    match goal with Hle : (_ <=? _)%nat = false |- _ => apply Nat.leb_gt in Hle end. lia.
Qed.

Lemma suspend_inv_worker id s :
  suspend_inv T s → suspend_inv T (calculateIteration_step N BLOCK_SIZE id s).
Proof.
  intros Hinv. pose proof Hinv as [Hlen Hws].
  unfold calculateIteration_step.
  destruct (threadsArray s !! id) as [w|] eqn:Hw; [|done].
  destruct (suspendCount w) eqn:Hsc; [|done].
  assert (Hlocal : ∀ nb p pc' cb' x' c' evs l',
    (c' = O ∨ c' = 1%nat ∧ pc' = AtClaim) →
    suspend_inv T
      (State nb p (<[id:=Worker pc' cb' x' c']> (threadsArray s)) evs (c_pc s) l')).
  { intros nb p pc' cb' x' c' evs l' Hc. split; simpl; [by rewrite length_insert |].
    intros j w' [(-> & <- & _)|[Hne Hj]]%list_lookup_insert_Some; [| by apply Hws].
    simpl. destruct Hc as [->|[-> ->]]; split; (lia || auto). }
  destruct (w_pc w); unfold fetch_add; try done;
    repeat case_match; apply Hlocal; auto.
Qed.

Lemma suspend_inv_reachable s : reachable' s → suspend_inv T s.
Proof.
  revert s. apply (reachable_ind N BLOCK_SIZE T (suspend_inv T)); [apply suspend_inv_initial |].
  intros s [|id] _ Hinv; [by apply suspend_inv_coordinator | by apply suspend_inv_worker].
Qed.

End Suspend.

(** X3. Under every schedule no suspend count exceeds 1, so one call of
    [ResumeThread] makes a suspended worker runnable. A worker is
    suspended only in two situations: it was created suspended and the
    start loop has not reached its index yet (it then still holds its
    first block at the test of its loop), or it has suspended itself at
    line 107 and waits at its claim. *)
Theorem suspended_once {R : Type} `{Arith R}
    (N B : Z) (T : nat) (sched : list thread) (id : nat) (w : worker R) :
  let s := run N B T sched (initial (R:=R) T) in
  threadsArray s !! id = Some w →
  (suspendCount w ≤ 1)%nat
  ∧ (suspendCount w = 1%nat →
       w_pc w = AtClaim
       ∨ (w_pc w = AtLoop ∧ currentBlock w = Z.of_nat id
          ∧ start_passed id (c_pc s) = false))
  ∧ suspendCount <$> ResumeThread id (threadsArray s) !! id = Some O.
Proof.
  intros s Hw.
  assert (Hs : reachable N B T s) by (by exists sched).
  destruct (suspend_inv_reachable N B T s Hs) as [Hlen Hws].
  destruct (Hws _ _ Hw) as [Hle Hone]. split_and!; [done | done |].
  unfold ResumeThread. rewrite Hw.
  rewrite list_lookup_insert_eq by (by eapply lookup_lt_Some). simpl. f_equal. lia.
Qed.

Lemma lost_wakeup_worker_5 :
  threadsArray (run N_main BLOCK_SIZE_main 13 (lost_wakeup_schedule 13) (initial (R:=Qc) 13))
    !! 5%nat
  = Some (Worker AtClaim 5 (sum_block N_main BLOCK_SIZE_main 5 0%Qc) 1%nat).
Proof.
  rewrite lost_wakeup_run by (rewrite blocks_main; simpl; lia).
  cbn [threadsArray]. unfold lost_threads. by rewrite fmap_seq_lookup by lia.
Qed.

Lemma suspended_once_witness :
  let s := run N_main BLOCK_SIZE_main 13 (lost_wakeup_schedule 13) (initial (R:=Qc) 13) in
  (1 ≤ 1)%nat
  ∧ suspendCount <$> ResumeThread 5 (threadsArray s) !! 5%nat = Some O.
Proof.
  pose proof (suspended_once (R:=Qc) N_main BLOCK_SIZE_main 13
                (lost_wakeup_schedule 13) 5
                (Worker AtClaim 5 (sum_block N_main BLOCK_SIZE_main 5 0%Qc) 1%nat)
                lost_wakeup_worker_5) as (Hle & _ & Hres).
  intros s. split; [exact Hle | exact Hres].
Defined.

(** ** Indices and signals of the coordinator's loops *)

Section HandshakeFacts.

Variables N BLOCK_SIZE : Z.
Context {R : Type} `{Arith R}.
Variable numberOfThreads : nat.

Local Abbreviation M := (NUMBER_OF_BLOCKS N BLOCK_SIZE).
Local Abbreviation T := numberOfThreads.
Local Abbreviation step' := (step N BLOCK_SIZE (R:=R) T).
Local Abbreviation reachable' := (reachable N BLOCK_SIZE (R:=R) T).
Local Abbreviation initial' := (initial (R:=R) T).

Lemma resumes_cons i e l :
  resumes i (e :: l) = ((if decide (e = EvResume i) then 1 else 0) + resumes i l)%nat.
Proof. unfold resumes. rewrite filter_cons. by case_decide. Qed.

Lemma handshake_inv_initial : handshake_inv T initial'.
Proof.
  split; simpl; try done.
  - apply create_threads_length.
  - unfold create_events. apply length_replicate.
  - intros j [|]; done.
  - intros j Hj. unfold create_events in Hj. by apply lookup_replicate in Hj as [? _].
  - intros i Hi. by apply elem_of_nil in Hi.
Qed.

Lemma handshake_inv_coordinator s :
  handshake_inv T s → handshake_inv T (calculatePi_step N BLOCK_SIZE T s).
Proof.
  intros Hinv. pose proof Hinv as [Hts Hevs Hstart Hfinal Hreset Hresume Hsig Hres Hover].
  unfold calculatePi_step. destruct (c_pc s) eqn:Hcpc.
  - (* the assignment *)
    split; simpl; rewrite ?resumes_cons; try done.
    + intros i [= <-]. lia.
    + intros j [|]; done.
    + intros j Hj. right. by apply Hsig.
    + intros i [|Hi]%elem_of_cons; [done | by apply Hres].
  - (* the start loop *)
    destruct (Nat.leb_spec i T) as [Hle|Hgt].
    + split; simpl; rewrite ?resumes_cons, ?ResumeThread_length; try done.
      * intros i' [= <-]. lia.
      * intros j [|]; done.
      * intros j Hj. right. by apply Hsig.
      * intros i' [[= ->]|Hi]%elem_of_cons; [done | by apply Hres].
      * simpl in Hover. rewrite Hover.
        destruct (decide (i = T)) as [->|Hne].
        -- rewrite decide_True by done.
           rewrite Nat.ltb_irrefl, (proj2 (Nat.ltb_lt T (S T))) by lia. done.
        -- rewrite decide_False by congruence.
           rewrite !(proj2 (Nat.ltb_ge _ _)) by lia. done.
    + split; simpl; try done.
      * intros j [|]; done.
      * simpl in Hover. by rewrite (proj2 (Nat.ltb_lt T i)) in Hover by lia.
  - (* the test of the dispatch loop *)
    split; simpl; try done.
    + by destruct (nextBlock s <=? M).
    + intros i Hi. destruct (nextBlock s <=? M); [done |]. injection Hi as <-. lia.
    + by destruct (nextBlock s <=? M).
    + intros j. destruct (nextBlock s <=? M); intros [|]; done.
    + by destruct (nextBlock s <=? M).
  - (* the wait *)
    destruct (first_signaled (eventsArray s)) as [j|] eqn:Hf; [| done].
    apply first_signaled_Some in Hf as [Hj _].
    split; simpl; try done.
    + by intros j' [= <-].
    + intros j' [[= <-]|]; [| done]. split; [| by apply Hsig].
      apply lookup_lt_Some in Hj. lia.
  - (* the reset *)
    destruct (Hresume j (or_introl eq_refl)) as [Hj Hlog].
    split; simpl; try done.
    + by rewrite length_insert.
    + by intros j' [[=]|[= <-]].
    + intros j' [(_ & [=] & _)|[Hne Hj']]%list_lookup_insert_Some. by apply Hsig.
  - (* the resume *)
    destruct (Hresume j (or_intror eq_refl)) as [Hj Hlog].
    split; simpl; rewrite ?resumes_cons, ?ResumeThread_length; try done.
    + intros j' [|]; done.
    + intros j' Hj'. right. by apply Hsig.
    + intros i [[= ->]|Hi]%elem_of_cons; [lia | by apply Hres].
    + simpl in Hover. rewrite Hover. rewrite decide_False; [done |].
      intros [= ->]. lia.
  - (* the last round of resumes *)
    specialize (Hfinal i eq_refl).
    destruct (Nat.ltb_spec i T) as [Hlt|Hge].
    + split; simpl; rewrite ?resumes_cons, ?ResumeThread_length; try done.
      * intros i' [= <-]. lia.
      * intros j [|]; done.
      * intros j Hj. right. by apply Hsig.
      * intros i' [[= ->]|Hi]%elem_of_cons; [lia | by apply Hres].
      * simpl in Hover. rewrite Hover. rewrite decide_False; [done |].
        intros [= ->]. lia.
    + split; simpl; try done. intros j [|]; done.
  - (* the join *)
    destruct (all_terminated (threadsArray s)); [| done].
    split; simpl; try done. intros j [|]; done.
  - split; simpl; try done. intros j [|]; done.
  - done.
Qed.

Lemma handshake_inv_worker id s :
  handshake_inv T s → handshake_inv T (calculateIteration_step N BLOCK_SIZE id s).
Proof.
  intros Hinv. pose proof Hinv as [Hts Hevs Hstart Hfinal Hreset Hresume Hsig Hres Hover].
  unfold calculateIteration_step.
  destruct (threadsArray s !! id) as [w|] eqn:Hw; [|done].
  destruct (suspendCount w) eqn:Hsc; [|done].
  (* a step that leaves the events alone *)
  assert (Hlocal : ∀ nb p w' l',
    (l' = log s ∨ ∃ e, l' = e :: log s ∧ owner e = Some id) →
    handshake_inv T
      (State nb p (<[id:=w']> (threadsArray s)) (eventsArray s) (c_pc s) l')).
  { intros nb p w' l' Hl'.
    assert (Hsub : ∀ e, e ∈ log s → e ∈ l').
    { intros e He. destruct Hl' as [->|(e' & -> & _)]; [done | by right]. }
    split; simpl; rewrite ?length_insert; try done.
    - intros j Hj. destruct (Hresume j Hj). split; [done | by apply Hsub].
    - intros j Hj. by apply Hsub, Hsig.
    - intros i Hi. destruct Hl' as [->|(e & -> & He)]; [by apply Hres |].
      apply elem_of_cons in Hi as [Heq|Hi]; [subst e; done | by apply Hres].
    - destruct Hl' as [->|(e & -> & He)]; [done |].
      rewrite resumes_cons, decide_False; [done |]. intros ->. done. }
  destruct (w_pc w) eqn:Hpc; unfold fetch_add; try done;
    try (repeat case_match; apply Hlocal; by eauto).
  (* the signal *)
  split; simpl; rewrite ?length_insert, ?resumes_cons; try done.
  - intros j Hj. specialize (Hreset j Hj).
    destruct (decide (id = j)) as [->|Hne].
    + rewrite list_lookup_insert_eq; [done |]. by eapply lookup_lt_Some.
    + by rewrite list_lookup_insert_ne.
  - intros j Hj. destruct (Hresume j Hj). split; [done | by right].
  - intros j [(<- & _ & _)|[Hne Hj]]%list_lookup_insert_Some; [left | right; by apply Hsig].
  - intros i [|Hi]%elem_of_cons; [done | by apply Hres].
Qed.

Lemma handshake_inv_reachable s : reachable' s → handshake_inv T s.
Proof.
  revert s.
  apply (reachable_ind N BLOCK_SIZE T (handshake_inv T)); [apply handshake_inv_initial |].
  intros s [|id] _ Hinv; [by apply handshake_inv_coordinator | by apply handshake_inv_worker].
Qed.

End HandshakeFacts.



(** ** The order of the additions *)

Lemma foldl_ext_in {A B} (f g : A → B → A) (a : A) (l : list B) :
  (∀ x, x ∈ l → ∀ a', f a' x = g a' x) → foldl f a l = foldl g a l.
Proof.
  revert a. induction l as [|x l IH]; intros a Hfg; [done |].
  simpl. rewrite (Hfg x) by left. apply IH. intros y Hy. apply Hfg. by right.
Qed.

Lemma blocks_of_computed id l :
  blocks_of id l = (filter (λ p, p.1 = id) (computed l)).*2.
Proof.
  induction l as [|e l IH]; [done |].
  destruct e as [| |id' k| | | |]; simpl; try done.
  rewrite filter_cons. simpl.
  destruct (decide (id' = id)); rewrite ?fmap_cons, IH; done.
Qed.

Section OrderFacts.

Variables N BLOCK_SIZE : Z.
Context {R : Type} `{Arith R}.
Variable numberOfThreads : nat.

Local Abbreviation M := (NUMBER_OF_BLOCKS N BLOCK_SIZE).
Local Abbreviation T := numberOfThreads.
Local Abbreviation reachable' := (reachable N BLOCK_SIZE (R:=R) T).
Local Abbreviation initial' := (initial (R:=R) T).
Local Abbreviation thread_sum' := (thread_sum N BLOCK_SIZE (R:=R)).
Local Abbreviation folded_sum' := (folded_sum N BLOCK_SIZE (R:=R)).

Lemma thread_sum_ext id l l' :
  blocks_of id l' = blocks_of id l → thread_sum' id l' = thread_sum' id l.
Proof. intros Hb. unfold thread_sum, samples_of. by rewrite Hb. Qed.

Lemma folded_sum_ext l l' :
  folded l' = folded l →
  (∀ id, id ∈ folded l → blocks_of id l' = blocks_of id l) →
  folded_sum' l' = folded_sum' l.
Proof.
  intros Hf Hb. unfold folded_sum. rewrite Hf. apply foldl_ext_in.
  intros id Hid a. f_equal. apply thread_sum_ext, Hb. by rewrite elem_of_reverse in Hid.
Qed.

(** Summing one more block extends the sum of the worker. *)
Lemma thread_sum_compute id k l :
  thread_sum' id (EvCompute id k :: l) = sum_block N BLOCK_SIZE k (thread_sum' id l).
Proof.
  unfold thread_sum, samples_of. simpl. rewrite decide_True by done.
  rewrite reverse_cons, fmap_app, concat_app, foldl_app. simpl.
  rewrite app_nil_r. by rewrite sum_block_foldl.
Qed.

Lemma order_inv_initial : order_inv N BLOCK_SIZE initial'.
Proof.
  split; simpl; try done.
  - by intros id w [-> _]%create_threads_lookup.
  - intros id Hid. by apply elem_of_nil in Hid.
  - intros [|]; done.
Qed.

Lemma plain_log l l' :
  (l' = l ∨ ∃ e, l' = e :: l ∧ plain e) →
  folded l' = folded l ∧ ∀ id, blocks_of id l' = blocks_of id l.
Proof. intros [->|(e & -> & He)]; [done |]. by destruct e. Qed.

Lemma order_inv_coordinator s :
  order_inv N BLOCK_SIZE s → order_inv N BLOCK_SIZE (calculatePi_step N BLOCK_SIZE T s).
Proof.
  intros Hinv. pose proof Hinv as [Hth Hfo Hjo Hpi Hdo].
  assert (Hres : ∀ i nb evs c l',
    (l' = log s ∨ ∃ e, l' = e :: log s ∧ plain e) →
    c_pc s ≠ CDone → c_pc s ≠ CDivide → c ≠ CDone →
    (c = CDivide → all_terminated (threadsArray s) = true) →
    order_inv N BLOCK_SIZE
      (State nb (pi s) (ResumeThread i (threadsArray s)) evs c l')).
  { intros i nb evs c l' [Hf Hb]%plain_log Hc Hc1 Hc' Hj. split; simpl.
    - intros id w' (w & Hw & _ & _ & Htp)%ResumeThread_lookup.
      rewrite Htp, (Hth _ _ Hw). symmetry. by apply thread_sum_ext.
    - intros id Hid. rewrite Hf in Hid. destruct (Hfo id Hid) as (w & Hw & Hpc).
      unfold ResumeThread. destruct (threadsArray s !! i) as [wi|] eqn:Hi; [| eauto].
      destruct (decide (i = id)) as [->|Hne].
      + rewrite list_lookup_insert_eq by (by eapply lookup_lt_Some).
        eexists. split; [done |]. simpl. congruence.
      + rewrite list_lookup_insert_ne by done. eauto.
    - intros [Hd|Hd]; [| done]. rewrite all_terminated_resume. by apply Hj.
    - intros _. rewrite (Hpi Hc). symmetry. apply folded_sum_ext; [done | by intros]. 
    - done. }
  assert (Hsame : ∀ nb evs c l',
    (l' = log s ∨ ∃ e, l' = e :: log s ∧ plain e) →
    c_pc s ≠ CDone → c_pc s ≠ CDivide → c ≠ CDone →
    (c = CDivide → all_terminated (threadsArray s) = true) →
    order_inv N BLOCK_SIZE (State nb (pi s) (threadsArray s) evs c l')).
  { intros nb evs c l' [Hf Hb]%plain_log Hc Hc1 Hc' Hj. split; simpl.
    - intros id w Hw. rewrite (Hth _ _ Hw). symmetry. by apply thread_sum_ext.
    - intros id Hid. rewrite Hf in Hid. by apply Hfo.
    - intros [Hd|Hd]; [| done]. by apply Hj.
    - intros _. rewrite (Hpi Hc). symmetry. apply folded_sum_ext; [done | by intros].
    - done. }
  unfold calculatePi_step.
  destruct (c_pc s) eqn:Hcpc; repeat case_match; try exact Hinv;
    try (first [ apply Hres | apply Hsame ]; simpl;
         first [ done | by left | right; eexists; by split ]).
  (* the division *)
  split; simpl; try done.
  - intros _. by apply Hjo; left.
  - intros _. by rewrite Hpi.
Qed.

Lemma order_inv_worker id s :
  order_inv N BLOCK_SIZE s →
  order_inv N BLOCK_SIZE (calculateIteration_step N BLOCK_SIZE id s).
Proof.
  intros Hinv. pose proof Hinv as [Hth Hfo Hjo Hpi Hdo].
  unfold calculateIteration_step.
  destruct (threadsArray s !! id) as [w|] eqn:Hw; [|done].
  destruct (suspendCount w) eqn:Hsc; [|done].
  destruct (decide (w_pc w = Terminated)) as [Hterm|Hterm]; [by rewrite Hterm |].
  assert (Hlt : (id < length (threadsArray s))%nat) by (by eapply lookup_lt_Some).
  (* a worker still runs, so the coordinator has not passed its join *)
  assert (Hrun : ¬ (c_pc s = CDivide ∨ c_pc s = CDone)).
  { intros Hc. specialize (Hjo Hc). rewrite all_terminated_lookup in Hjo.
    by specialize (Hjo _ _ Hw). }
  assert (Hnd : c_pc s ≠ CDone) by tauto.
  (* a worker that has folded is not this one *)
  assert (Hother : ∀ j, j ∈ folded (log s) → j ≠ id).
  { intros j Hj ->. destruct (Hfo _ Hj) as (w' & Hw' & Hpc'). congruence. }
  (* the others keep their place *)
  assert (Hkeep : ∀ w' j, j ∈ folded (log s) →
    ∃ wj, <[id:=w']> (threadsArray s) !! j = Some wj ∧ w_pc wj = Terminated).
  { intros w' j Hj. destruct (Hfo _ Hj) as (wj & Hwj & Hpcj). exists wj.
    rewrite list_lookup_insert_ne; [done |]. intros ->. by apply (Hother j). }
  assert (Hlocal : ∀ nb pc' cb' c' evs l',
    (l' = log s ∨ ∃ e, l' = e :: log s ∧ plain e) →
    order_inv N BLOCK_SIZE
      (State nb (pi s) (<[id:=Worker pc' cb' (threadPi w) c']> (threadsArray s))
         evs (c_pc s) l')).
  { intros nb pc' cb' c' evs l' [Hf Hb]%plain_log. split; simpl.
    - intros j wj [(-> & <- & _)|[Hne Hj]]%list_lookup_insert_Some; simpl.
      + rewrite (Hth _ _ Hw). symmetry. by apply thread_sum_ext.
      + rewrite (Hth _ _ Hj). symmetry. by apply thread_sum_ext.
    - intros j Hj. rewrite Hf in Hj. by apply Hkeep.
    - tauto.
    - intros _. rewrite (Hpi Hnd). symmetry. apply folded_sum_ext; [done | by intros].
    - tauto. }
  destruct (w_pc w) eqn:Hpc; unfold fetch_add; try done;
    try (repeat case_match; apply Hlocal;
         first [ by left | right; eexists; by split ]).
  - (* the test of the loop *)
    destruct (loop_guard N BLOCK_SIZE (currentBlock w));
      [| apply Hlocal; by left].
    split; simpl.
    + intros j wj [(-> & <- & _)|[Hne Hj]]%list_lookup_insert_Some; simpl.
      * rewrite thread_sum_compute. by rewrite (Hth _ _ Hw).
      * rewrite (Hth _ _ Hj). symmetry. apply thread_sum_ext. simpl.
        by rewrite decide_False.
    + intros j Hj. by apply Hkeep.
    + tauto.
    + intros _. rewrite (Hpi Hnd). symmetry. apply folded_sum_ext; [done |].
      intros j Hj. simpl. rewrite decide_False; [done |].
      intros ->. by apply (Hother j).
    + tauto.
  - (* the fold *)
    split; simpl.
    + intros j wj [(-> & <- & _)|[Hne Hj]]%list_lookup_insert_Some; simpl.
      * by rewrite (Hth _ _ Hw).
      * by rewrite (Hth _ _ Hj).
    + intros j [->|Hj]%elem_of_cons; [| by apply Hkeep].
      eexists. by rewrite list_lookup_insert_eq.
    + tauto.
    + intros _. unfold folded_sum. simpl.
      rewrite reverse_cons, foldl_app. simpl.
      rewrite (Hpi Hnd), (Hth _ _ Hw). done.
    + tauto.
Qed.

Lemma order_inv_reachable s : reachable' s → order_inv N BLOCK_SIZE s.
Proof.
  revert s.
  apply (reachable_ind N BLOCK_SIZE T (order_inv N BLOCK_SIZE)); [apply order_inv_initial |].
  intros s [|id] _ Hinv; [by apply order_inv_coordinator | by apply order_inv_worker].
Qed.

End OrderFacts.


(** ** The number of claims *)

Lemma big_add_pointwise {A} (f g : A → nat) (l : list A) :
  big Nat.add O ((λ x, f x + g x)%nat <$> l)
  = (big Nat.add O (f <$> l) + big Nat.add O (g <$> l))%nat.
Proof. unfold big. induction l as [|x l IH]; csimpl; [done |]. rewrite IH. lia. Qed.

Lemma big_add_ones {A} (l : list A) : big Nat.add O ((λ _, 1%nat) <$> l) = length l.
Proof. unfold big. induction l as [|x l IH]; csimpl; [done |]. by rewrite IH. Qed.

Lemma big_add_ext {A} (f g : A → nat) (l : list A) :
  (∀ x, x ∈ l → f x = g x) → big Nat.add O (f <$> l) = big Nat.add O (g <$> l).
Proof.
  unfold big. induction l as [|x l IH]; intros Hfg; csimpl; [done |].
  rewrite (Hfg x) by left. rewrite IH; [done |]. intros y Hy. apply Hfg. by right.
Qed.

Lemma big_add_app (l1 l2 : list nat) :
  big Nat.add O (l1 ++ l2) = (big Nat.add O l1 + big Nat.add O l2)%nat.
Proof. unfold big. rewrite foldr_app, foldr_add_acc. done. Qed.

(** Exactly one index of [0 .. m-1] is [a]. *)
Lemma count_index (a : Z) (m : nat) :
  0 ≤ a < Z.of_nat m →
  big Nat.add O ((λ k, if a =? k then 1%nat else O) <$> seqZ 0 (Z.of_nat m)) = 1%nat.
Proof.
  induction m as [|m IH]; intros Ha; [lia |].
  rewrite seqZ_S, fmap_app, big_add_app. unfold big at 2. simpl.
  rewrite Z.add_0_l. destruct (Z.eqb_spec a (Z.of_nat m)) as [->|Hne].
  - rewrite count_zero; [done |].
    intros k [_ Hk]%elem_of_seqZ. destruct (Z.eqb_spec (Z.of_nat m) k); [lia | done].
  - rewrite IH by lia. done.
Qed.

(** A list of blocks of [0 .. m-1] is as long as the occurrences of these
    blocks in it taken together. *)
Lemma occurrences_total (l : list (nat * Z)) (m : nat) :
  (∀ p, p ∈ l → 0 ≤ p.2 < Z.of_nat m) →
  length l = big Nat.add O ((λ k, occurrences k l) <$> seqZ 0 (Z.of_nat m)).
Proof.
  induction l as [|[id a] l IH]; intros Hl.
  - rewrite count_zero; [done |]. done.
  - rewrite (big_add_ext _ (λ k : Z, ((if (a =? k)%Z then 1 else 0) + occurrences k l)%nat)).
    + rewrite big_add_pointwise, count_index, <- IH; [done | |].
      * intros p Hp. apply Hl. by right.
      * apply (Hl (id, a)). left.
    + intros k _. apply occurrences_cons.
Qed.

Section ClaimCount.

Variables N BLOCK_SIZE : Z.
Context {R : Type} `{Arith R}.
Variable numberOfThreads : nat.

Local Abbreviation M := (NUMBER_OF_BLOCKS N BLOCK_SIZE).
Local Abbreviation T := numberOfThreads.
Local Abbreviation reachable' := (reachable N BLOCK_SIZE (R:=R) T).
Local Abbreviation initial' := (initial (R:=R) T).

Lemma claim_inv_initial : claim_inv initial'.
Proof.
  unfold claim_inv. simpl. rewrite count_zero; [done |].
  intros w [id Hw]%list_elem_of_lookup. by apply create_threads_lookup in Hw as [-> _].
Qed.

Lemma claim_inv_coordinator s : claim_inv s → claim_inv (calculatePi_step N BLOCK_SIZE T s).
Proof.
  unfold claim_inv. intros Hinv.
  assert (Hres : ∀ i, busy <$> ResumeThread i (threadsArray s) = busy <$> threadsArray s).
  { intros i. by apply ResumeThread_fmap. }
  unfold calculatePi_step.
  destruct (c_pc s); repeat case_match; simpl; rewrite ?Hres; done.
Qed.

Lemma claim_inv_worker id s : claim_inv s → claim_inv (calculateIteration_step N BLOCK_SIZE id s).
Proof.
  unfold claim_inv. intros Hinv. unfold calculateIteration_step.
  destruct (threadsArray s !! id) as [w|] eqn:Hw; [|done].
  destruct (suspendCount w) eqn:Hsc; [|done].
  destruct (big_insert Nat.add O (busy <$> threadsArray s) id (busy w))
    as (rest & Hrest & Hins).
  { by rewrite list_lookup_fmap, Hw. }
  rewrite Hrest in Hinv. unfold busy in Hinv at 1.
  destruct (w_pc w) eqn:Hpc; simpl in Hinv; unfold fetch_add; try done;
    try case_match; cbn [threadsArray log claimed computed length];
    first [ rewrite list_fmap_insert, Hins; unfold busy; simpl; lia
          | rewrite Hrest; unfold busy; rewrite Hpc; simpl; lia ].
Qed.

Lemma claim_inv_reachable s : reachable' s → claim_inv s.
Proof.
  revert s. apply (reachable_ind N BLOCK_SIZE T claim_inv); [apply claim_inv_initial |].
  intros s [|id] _ Hinv; [by apply claim_inv_coordinator | by apply claim_inv_worker].
Qed.

Hypothesis Hvalid : valid_constants N BLOCK_SIZE.
Hypothesis Hfits : cursor_fits N BLOCK_SIZE T.

(** When all workers have terminated the blocks [0 .. M] have each been
    summed once, and nothing else has. *)
Lemma computed_length_terminated s :
  reachable' s → (1 ≤ T)%nat → all_terminated (threadsArray s) = true →
  Z.of_nat (length (computed (log s))) = M + 1.
Proof.
  intros Hs HT Hall. destruct Hvalid as (HN & HB & _).
  pose proof (blocks_pos N BLOCK_SIZE HN HB) as HM.
  destruct (dispatch_inv_reachable N BLOCK_SIZE T Hfits s Hs) as [_ _ Hcomp].
  rewrite (occurrences_total (computed (log s)) (Z.to_nat (M + 1))).
  - rewrite (big_add_ext _ (λ _, 1%nat)).
    + rewrite big_add_ones, length_seqZ. lia.
    + intros k [Hk0 Hk]%elem_of_seqZ.
      apply (computed_once_terminated N BLOCK_SIZE T Hfits); [done | done | done | lia].
  - intros [id k] Hin. simpl. destruct (Hcomp id k Hin) as [Hd Hk].
    apply (list_elem_of_fmap_2 snd) in Hd.
    rewrite (dispatch_sequence N BLOCK_SIZE T Hfits s Hs) in Hd.
    apply elem_of_seqZ in Hd. simpl in Hd. lia.
Qed.

End ClaimCount.

(** X7. Under every schedule the number of claims made plus the number
    of workers between a summation and their next claim is the number of
    summations made: every summation is followed by exactly one claim of
    the same worker. So when all workers have terminated, exactly [M + 1]
    blocks have been summed (block [M], the empty one, among them),
    exactly [M + 1] claims have been made, and the cursor is
    [numberOfThreads + M + 1], whatever the number of threads and the
    schedule. *)
Theorem claims_match_summations {R : Type} `{Arith R}
    (N B : Z) (T : nat) (sched : list thread) :
  valid_constants N B → cursor_fits N B T →
  let s := run N B T sched (initial (R:=R) T) in
  let M := NUMBER_OF_BLOCKS N B in
  (length (claimed (log s)) + big Nat.add O (busy <$> threadsArray s))%nat
    = length (computed (log s))
  ∧ ((1 ≤ T)%nat → all_terminated (threadsArray s) = true →
       Z.of_nat (length (computed (log s))) = M + 1
       ∧ Z.of_nat (length (claimed (log s))) = M + 1
       ∧ nextBlock s = Z.of_nat T + M + 1).
Proof.
  intros Hvalid Hfits s M.
  assert (Hs : reachable N B T s) by (by exists sched).
  pose proof (claim_inv_reachable N B T s Hs) as Hclaim. unfold claim_inv in Hclaim.
  split; [exact Hclaim |]. intros HT Hall.
  pose proof (computed_length_terminated N B T Hvalid Hfits s Hs HT Hall) as Hlen.
  rewrite count_zero in Hclaim.
  - destruct (cursor_inv_reachable N B T Hfits s Hs) as [_ Hcur Hfresh _ _ _ _].
    assert (Hpost : c_pc s ≠ CSetCursor).
    { intros Hc. specialize (Hfresh Hc). rewrite Hfresh in Hlen. simpl in Hlen.
      destruct Hvalid as (HN & HB & _). pose proof (blocks_pos N B HN HB). lia. }
    rewrite (Hcur Hpost). unfold cursor_of. fold M in Hlen. lia.
  - intros w [j Hw]%list_elem_of_lookup.
    rewrite all_terminated_lookup in Hall. specialize (Hall _ _ Hw).
    unfold busy. by rewrite Hall.
Qed.

Lemma claims_match_summations_witness :
  let s := run 10 3 2 (round_robin 2 40) (initial (R:=Qc) 2) in
  all_terminated (threadsArray s) = true ∧ nextBlock s = 2 + 4 + 1.
Proof.
  intros s.
  assert (Hvalid : valid_constants 10 3).
  { unfold valid_constants. vm_compute. split_and!; discriminate. }
  assert (Hfits : cursor_fits 10 3 2).
  { unfold cursor_fits. vm_compute. reflexivity. }
  assert (Hterm : all_terminated (threadsArray s) = true) by (vm_compute; reflexivity).
  pose proof (claims_match_summations (R:=Qc) 10 3 2 (round_robin 2 40) Hvalid Hfits)
    as [_ Hend].
  destruct (Hend ltac:(lia) Hterm) as (_ & _ & Hnb).
  split; [exact Hterm | exact Hnb].
Defined.

(** ** The order of a worker's blocks *)

Lemma blocks_ordered_ext {R} id (w w' : worker R) l l' :
  blocks_of id l' = blocks_of id l →
  in_body (w_pc w') = in_body (w_pc w) →
  currentBlock w' = currentBlock w →
  blocks_ordered id w l → blocks_ordered id w' l'.
Proof. unfold blocks_ordered. by intros -> -> ->. Qed.

Section BlockOrder.

Variables N BLOCK_SIZE : Z.
Context {R : Type} `{Arith R}.
Variable numberOfThreads : nat.

Local Abbreviation M := (NUMBER_OF_BLOCKS N BLOCK_SIZE).
Local Abbreviation T := numberOfThreads.
Local Abbreviation reachable' := (reachable N BLOCK_SIZE (R:=R) T).
Local Abbreviation initial' := (initial (R:=R) T).

Hypothesis Hfits : cursor_fits N BLOCK_SIZE T.

Lemma all_ordered_initial : all_ordered initial'.
Proof.
  intros id w [-> _]%create_threads_lookup. unfold blocks_ordered. simpl.
  split_and!; try done.
  - constructor.
  - intros k Hk. by apply elem_of_nil in Hk.
  - intros _ k Hk. by apply elem_of_nil in Hk.
Qed.

Lemma all_ordered_coordinator s :
  all_ordered s → all_ordered (calculatePi_step N BLOCK_SIZE T s).
Proof.
  intros Hinv.
  assert (Hres : ∀ i nb p evs c l',
    (∀ j, blocks_of j l' = blocks_of j (log s)) →
    all_ordered (State nb p (ResumeThread i (threadsArray s)) evs c l')).
  { intros i nb p evs c l' Hl id w' Hw'. simpl in *.
    apply ResumeThread_lookup in Hw' as (w & Hw & Hpc & Hcb & _).
    apply (blocks_ordered_ext id w w' (log s)); [done | by rewrite Hpc | done |].
    by apply Hinv. }
  assert (Hsame : ∀ nb p evs c l',
    (∀ j, blocks_of j l' = blocks_of j (log s)) →
    all_ordered (State nb p (threadsArray s) evs c l')).
  { intros nb p evs c l' Hl id w Hw. simpl in *.
    apply (blocks_ordered_ext id w w (log s)); [done | done | done |].
    by apply Hinv. }
  unfold calculatePi_step.
  destruct (c_pc s); repeat case_match;
    first [ done | by apply Hres | by apply Hsame ].
Qed.

Lemma all_ordered_worker id s :
  reachable' s → all_ordered s →
  all_ordered (calculateIteration_step N BLOCK_SIZE id s).
Proof.
  intros Hs Hinv. unfold calculateIteration_step.
  destruct (threadsArray s !! id) as [w|] eqn:Hw; [|done].
  destruct (suspendCount w) eqn:Hsc; [|done].
  destruct (cursor_inv_reachable N BLOCK_SIZE T Hfits s Hs)
    as [_ Hcur _ Hcreated Hws _ _].
  assert (Hpost : c_pc s ≠ CSetCursor).
  { intros Hc. by apply (Hcreated Hc id w Hw). }
  specialize (Hcur Hpost). destruct (Hws id w Hw) as ((_ & Hlt) & _).
  destruct (Hinv id w Hw) as (Hsorted & Hid & Hge & Hhead & Hbelow & Hnone & Hlast).
  assert (Hlocal : ∀ nb p pc' tp c' evs c l',
    (∀ j, blocks_of j l' = blocks_of j (log s)) →
    in_body pc' = in_body (w_pc w) →
    all_ordered
      (State nb p (<[id:=Worker pc' (currentBlock w) tp c']> (threadsArray s)) evs c l')).
  { intros nb p pc' tp c' evs c l' Hl Hpc' j wj. simpl.
    intros [(-> & <- & _)|[Hne Hj]]%list_lookup_insert_Some.
    - by apply (blocks_ordered_ext j w _ (log s)).
    - apply (blocks_ordered_ext j wj wj (log s)); [done | done | done |].
      by apply Hinv. }
  destruct (w_pc w) eqn:Hpc; unfold fetch_add; try done;
    try (repeat case_match; by apply Hlocal).
  - (* the test of the loop *)
    destruct (loop_guard N BLOCK_SIZE (currentBlock w)); [| by apply Hlocal].
    intros j wj. simpl.
    intros [(-> & <- & _)|[Hne Hj]]%list_lookup_insert_Some.
    + unfold blocks_ordered. simpl. rewrite decide_True by done.
      specialize (Hbelow eq_refl). split_and!; try done.
      * constructor; [done |]. apply Forall_forall. intros k Hk.
        by apply Hbelow.
      * intros k [->|Hk]%elem_of_cons; [done | by apply Hge].
      * intros _. destruct (blocks_of j (log s)) as [|b bs] eqn:Hbs.
        -- simpl. by rewrite Hnone.
        -- rewrite last_cons. by rewrite Hlast.
    + apply (blocks_ordered_ext j wj wj (log s)); [| done | done | by apply Hinv].
      simpl. by rewrite decide_False.
  - (* the claim *)
    intros j wj. simpl.
    intros [(-> & <- & _)|[Hne Hj]]%list_lookup_insert_Some.
    + unfold blocks_ordered. simpl. specialize (Hhead eq_refl).
      destruct (blocks_of j (log s)) as [|b bs] eqn:Hbs; [done |].
      simpl in Hhead. injection Hhead as ->.
      apply StronglySorted_inv in Hsorted as [Hsorted Hall].
      rewrite Forall_forall in Hall.
      split_and!; try done.
      * constructor; [done |]. by apply Forall_forall.
      * lia.
      * intros _ k [->|Hk]%elem_of_cons; [lia |].
        apply Hall in Hk. lia.
    + apply (blocks_ordered_ext j wj wj (log s)); [done | done | done |].
      by apply Hinv.
Qed.

Lemma all_ordered_reachable s : reachable' s → all_ordered s.
Proof.
  revert s. apply (reachable_ind N BLOCK_SIZE T all_ordered); [apply all_ordered_initial |].
  intros s [|id] Hs Hinv; [by apply all_ordered_coordinator | by apply all_ordered_worker].
Qed.

End BlockOrder.

Lemma blocks_of_in_computed id l k : k ∈ blocks_of id l → (id, k) ∈ computed l.
Proof.
  induction l as [|e l IH]; [by intros ?%elem_of_nil |].
  destruct e as [| |id' k'| | | |]; cbn [blocks_of computed]; try exact IH.
  destruct (decide (id' = id)) as [->|Hne].
  - intros [->|Hk]%elem_of_cons; [left | right; by apply IH].
  - intros Hk. right. by apply IH.
Qed.

(** X8. Under every schedule each worker sums its blocks in strictly
    increasing order: every block it sums is larger than all the blocks
    it summed before. The first block a worker sums is the one with its
    own index, and a worker that has summed nothing still holds that
    index. Every block it has summed lies between its own index and the
    block it holds now, and is at most [M]; between a summation and the
    next claim the block it holds is the one it summed last. *)
Theorem worker_blocks_increase {R : Type} `{Arith R}
    (N B : Z) (T : nat) (sched : list thread) (id : nat) (w : worker R) :
  cursor_fits N B T →
  let s := run N B T sched (initial (R:=R) T) in
  threadsArray s !! id = Some w →
  let bs := blocks_of id (log s) in
  StronglySorted (λ later earlier, earlier < later) bs
  ∧ (bs ≠ [] → last bs = Some (Z.of_nat id))
  ∧ (bs = [] → currentBlock w = Z.of_nat id)
  ∧ (∀ k, k ∈ bs → Z.of_nat id ≤ k ≤ currentBlock w ∧ k ≤ NUMBER_OF_BLOCKS N B)
  ∧ (in_body (w_pc w) = true → head bs = Some (currentBlock w)).
Proof.
  intros Hfits s Hw bs.
  assert (Hs : reachable N B T s) by (by exists sched).
  destruct (all_ordered_reachable N B T Hfits s Hs id w Hw)
    as (Hsorted & Hid & Hge & Hhead & Hbelow & Hnone & Hlast).
  destruct (dispatch_inv_reachable N B T Hfits s Hs) as [_ _ Hcomp].
  fold bs in Hsorted, Hge, Hhead, Hbelow, Hnone, Hlast.
  split_and!; try done.
  intros k Hk. split_and!.
  - by apply Hge.
  - destruct (in_body (w_pc w)) eqn:Hbody.
    + specialize (Hhead eq_refl). destruct bs as [|b bs']; [done |].
      simpl in Hhead. injection Hhead as ->.
      apply StronglySorted_inv in Hsorted as [_ Hall].
      rewrite Forall_forall in Hall.
      apply elem_of_cons in Hk as [->|Hk]; [lia |]. apply Hall in Hk. lia.
    + specialize (Hbelow eq_refl k Hk). lia.
  - apply blocks_of_in_computed in Hk. by destruct (Hcomp id k Hk).
Qed.

Lemma round_robin_worker_0 :
  ∃ w, threadsArray (run 10 3 2 (round_robin 2 40) (initial (R:=Qc) 2)) !! 0%nat = Some w.
Proof. eexists. vm_compute. reflexivity. Qed.

Lemma round_robin_blocks_0 :
  blocks_of 0 (log (run 10 3 2 (round_robin 2 40) (initial (R:=Qc) 2))) = [4; 2; 0].
Proof. vm_compute. reflexivity. Qed.

Lemma worker_blocks_increase_witness :
  last (blocks_of 0 (log (run 10 3 2 (round_robin 2 40) (initial (R:=Qc) 2)))) = Some 0.
Proof.
  assert (Hfits : cursor_fits 10 3 2).
  { unfold cursor_fits. vm_compute. reflexivity. }
  destruct round_robin_worker_0 as [w Hw].
  destruct (worker_blocks_increase (R:=Qc) 10 3 2 (round_robin 2 40) 0 w Hfits Hw)
    as (_ & Hlast & _).
  apply Hlast. intros Hnil.
  pose proof (eq_trans (eq_sym Hnil) round_robin_blocks_0) as Hbs. discriminate Hbs.
Defined.
